(** * illu: the Hacker News delta relay of [illu.go]

    A shallow embedding of the streaming core of [illu.go]: the process-wide
    table [lastSentStoryIDs], the two senders
    [sendInitialHackerNewsStories] and [sendDeltaHackerNewsStories], and the
    connection handler [hnEventsHandler].

    Network answers are inputs of the model (a [World] per call), and what a
    call does to the outside is its output (a list of [Action]s: the GET
    requests it issues and the messages it writes to the client). The table
    is passed in and out explicitly. Both senders hold the table's mutex
    from just after the list is decoded until they return, so a call is one
    atomic step on the table and a run of the process is a sequence of
    calls. *)

From stdpp Require Import base gmap strings list.

Open Scope Z_scope.

#[local] Set Warnings "-clear-no-such-hyp".

(** ** Data *)

(** [HNStory] (illu.go:19). Go's [int] is 64 bits wide; identifiers are only
    compared and stored, never computed with, so they are plain integers. *)
Record HNStory := mkStory {
  ID : Z;
  Title : string;
  URL : string;
  By : string;
  Score : Z;
  Type_ : string
}.

(** The key set of [lastSentStoryIDs.ids], a [map[int]struct{}]. *)
Abbreviation SeenSet := (gset Z).

(** [init] (illu.go:57): the table is created empty. *)
Definition init : SeenSet := ∅.

(** [lastSentStoryIDs.ids[id] = struct{}{}]. *)
Definition mark (id : Z) (ids : SeenSet) : SeenSet := {[id]} ∪ ids.

(** Answer to the GET of [topstories.json]: transport failure, a body that
    does not decode into [[]int], or the decoded list. *)
Inductive TopResult :=
| TopFetchErr
| TopDecodeErr
| TopOk (currentStoryIDs : list Z).

(** Answer to the GET of one [item/<id>.json]. *)
Inductive ItemResult :=
| ItemFetchErr
| ItemDecodeErr
| ItemOk (story : HNStory).

(** What the network and [json.Marshal] answer during one call of a sender.
    [item k id] is the answer to the [k]-th iteration's request, which asks
    for [id]: two requests for one identifier may be answered differently. *)
Record World := mkWorld {
  topstories : TopResult;
  item : nat → Z → ItemResult;
  marshal : HNStory → option string
}.

Inductive Cause := Fetching | Decoding | Marshalling.

(** The messages of the event stream. The timestamp of [connected] and
    [no-new-data] and the text of Go's error values are left out. A
    [new-story] message is the three [Fprintf]s of illu.go:238-240 (or
    331-333): its [id:] line is [story.ID], its data the marshalled story. *)
Inductive Event :=
| Connected
| Error (c : Cause)
| StoryError (id : Z) (c : Cause)
| NewStory (story : HNStory) (data : string)
| NoNewData.

Inductive Action :=
| GetTop
| GetItem (id : Z)
| Wrote (e : Event)
| WriteFailed (e : Event)
| HttpError.

(** The client's connection: writing to a closed one fails. *)
Record Conn := mkConn { closed : bool }.

Inductive WriteError := ErrClosed.

(** [fmt.Fprintf(w, ...)] followed by [flusher.Flush()]: the write is
    attempted, and its error is returned to the caller. *)
Definition Fprintf (w : Conn) (e : Event) : list Action * option WriteError :=
  if closed w then ([WriteFailed e], Some ErrClosed) else ([Wrote e], None).

(** Every call site in illu.go is a bare statement [fmt.Fprintf(w, ...)]:
    both results are dropped. *)
Definition emit (w : Conn) (e : Event) : list Action := fst (Fprintf w e).

(** ** The delta loop *)

(** illu.go:276-283, the loop the specification calls [markAndDiff]:
<<
  var newStoryIDs []int
  for _, id := range currentStoryIDs {
    if _, exists := lastSentStoryIDs.ids[id]; !exists {
      newStoryIDs = append(newStoryIDs, id)
    }
    lastSentStoryIDs.ids[id] = struct{}{}
  }
>>
    The state of the loop is the pair of [newStoryIDs] and the table. *)
Definition markAndDiff_step (st : list Z * SeenSet) (id : Z) : list Z * SeenSet :=
  let '(newStoryIDs, ids) := st in
  ((if decide (id ∈ ids) then newStoryIDs else newStoryIDs ++ [id]), mark id ids).

Definition markAndDiff (ids : SeenSet) (currentStoryIDs : list Z) : list Z * SeenSet :=
  fold_left markAndDiff_step currentStoryIDs ([], ids).

(** ** The senders *)

(** illu.go:225 and 318: the items that are skipped without a message. *)
Definition skipped (story : HNStory) : bool :=
  bool_decide (Type_ story ≠ "story")
  || bool_decide (Title story = "")
  || bool_decide (URL story = "").

Definition initialStoriesLimit : nat := 10.
Definition maxNewStoriesToSend : nat := 5.

(** One iteration of the loop of illu.go:202-247, for the [k]-th identifier
    [id]: the actions it performs and the table it leaves. Only the last
    statement, reached when the story was written, touches the table, and it
    marks [story.ID]. *)
Definition initial_body (w : Conn) (net : World) (k : nat) (id : Z) (ids : SeenSet)
  : list Action * SeenSet :=
  match item net k id with
  | ItemFetchErr => (GetItem id :: emit w (StoryError id Fetching), ids)
  | ItemDecodeErr => (GetItem id :: emit w (StoryError id Decoding), ids)
  | ItemOk story =>
      if skipped story then ([GetItem id], ids)
      else match marshal net story with
           | None => (GetItem id :: emit w (StoryError id Marshalling), ids)
           | Some storyJSON =>
               (GetItem id :: emit w (NewStory story storyJSON), mark (ID story) ids)
           end
  end.

Fixpoint initial_loop (w : Conn) (net : World) (k : nat) (storiesToFetch : list Z)
  (ids : SeenSet) : list Action * SeenSet :=
  match storiesToFetch with
  | [] => ([], ids)
  | id :: rest =>
      let '(acts, ids1) := initial_body w net k id ids in
      let '(acts', ids2) := initial_loop w net (S k) rest ids1 in
      (acts ++ acts', ids2)
  end.

(** illu.go:196-200. *)
Definition storiesToFetch (currentStoryIDs : list Z) : list Z :=
  if (initialStoriesLimit <? length currentStoryIDs)%nat
  then take initialStoriesLimit currentStoryIDs
  else currentStoryIDs.

(** [sendInitialHackerNewsStories] (illu.go:171). *)
Definition sendInitialHackerNewsStories (w : Conn) (net : World) (ids : SeenSet)
  : list Action * SeenSet :=
  match topstories net with
  | TopFetchErr => (GetTop :: emit w (Error Fetching), ids)
  | TopDecodeErr => (GetTop :: emit w (Error Decoding), ids)
  | TopOk currentStoryIDs =>
      let '(acts, ids') := initial_loop w net 0 (storiesToFetch currentStoryIDs) ids in
      (GetTop :: acts, ids')
  end.

(** One iteration of the loop of illu.go:299-337. It never touches the
    table. *)
Definition delta_body (w : Conn) (net : World) (k : nat) (id : Z) : list Action :=
  match item net k id with
  | ItemFetchErr => GetItem id :: emit w (StoryError id Fetching)
  | ItemDecodeErr => GetItem id :: emit w (StoryError id Decoding)
  | ItemOk story =>
      if skipped story then [GetItem id]
      else match marshal net story with
           | None => GetItem id :: emit w (StoryError id Marshalling)
           | Some storyJSON => GetItem id :: emit w (NewStory story storyJSON)
           end
  end.

Fixpoint delta_loop (w : Conn) (net : World) (k : nat) (newStoryIDs : list Z)
  : list Action :=
  match newStoryIDs with
  | [] => []
  | id :: rest => delta_body w net k id ++ delta_loop w net (S k) rest
  end.

(** illu.go:294-297. *)
Definition truncated (newStoryIDs : list Z) : list Z :=
  if (maxNewStoriesToSend <? length newStoryIDs)%nat
  then take maxNewStoriesToSend newStoryIDs
  else newStoryIDs.

(** [sendDeltaHackerNewsStories] (illu.go:252). *)
Definition sendDeltaHackerNewsStories (w : Conn) (net : World) (ids : SeenSet)
  : list Action * SeenSet :=
  match topstories net with
  | TopFetchErr => (GetTop :: emit w (Error Fetching), ids)
  | TopDecodeErr => (GetTop :: emit w (Error Decoding), ids)
  | TopOk currentStoryIDs =>
      let '(newStoryIDs, ids') := markAndDiff ids currentStoryIDs in
      if (length newStoryIDs =? 0)%nat
      then (GetTop :: emit w NoNewData, ids')
      else (GetTop :: delta_loop w net 0 (truncated newStoryIDs), ids')
  end.

(** ** The process: calls of the senders on the shared table *)

(** One call of a sender by some session, on that session's connection and
    with the answers the network gives during the call. *)
Inductive Call :=
| Initial (w : Conn) (net : World)
| Delta (w : Conn) (net : World).

Definition call (c : Call) (ids : SeenSet) : list Action * SeenSet :=
  match c with
  | Initial w net => sendInitialHackerNewsStories w net ids
  | Delta w net => sendDeltaHackerNewsStories w net ids
  end.

(** The mutex orders the calls of all sessions: a run is a list of calls,
    each starting from the table the previous one left. The result lists
    the actions of every call, in order. *)
Fixpoint run (calls : list Call) (ids : SeenSet) : list (list Action) * SeenSet :=
  match calls with
  | [] => ([], ids)
  | c :: rest =>
      let '(acts, ids1) := call c ids in
      let '(traces, ids2) := run rest ids1 in
      (acts :: traces, ids2)
  end.

(** The value of [newStoryIDs] after the loop of illu.go:276-283 in a call
    started on table [ids]; a call that does not reach that loop computes no
    delta. *)
Definition newStoryIDs_of (c : Call) (ids : SeenSet) : list Z :=
  match c with
  | Delta _ net =>
      match topstories net with
      | TopOk currentStoryIDs => fst (markAndDiff ids currentStoryIDs)
      | _ => []
      end
  | Initial _ _ => []
  end.

(** The deltas computed by the calls of a run, one entry per call. *)
Fixpoint deltas (calls : list Call) (ids : SeenSet) : list (list Z) :=
  match calls with
  | [] => []
  | c :: rest => newStoryIDs_of c ids :: deltas rest (snd (call c ids))
  end.

(** ** The connection handler *)

(** What the handler of one session observes while it waits in its
    [select] (illu.go:157-166): the ticker fires, the request context is
    done, the client hangs up (writes fail from then on), or another
    session runs a sender on the shared table. *)
Inductive Select :=
| Tick (net : World)
| Done
| Hangup
| Other (c : Call).

Fixpoint handler_loop (w : Conn) (sel : list Select) (ids : SeenSet)
  : list Action * SeenSet :=
  match sel with
  | [] => ([], ids)
  | Done :: _ => ([], ids)
  | Tick net :: rest =>
      let '(acts, ids1) := sendDeltaHackerNewsStories w net ids in
      let '(acts', ids2) := handler_loop w rest ids1 in
      (acts ++ acts', ids2)
  | Hangup :: rest => handler_loop (mkConn true) rest ids
  | Other c :: rest => handler_loop w rest (snd (call c ids))
  end.

(** [hnEventsHandler] (illu.go:130). [flusher] tells whether the response
    writer is an [http.Flusher]. *)
Definition hnEventsHandler (flusher : bool) (w : Conn) (net0 : World)
  (sel : list Select) (ids : SeenSet) : list Action * SeenSet :=
  if flusher then
    let '(acts1, ids1) := sendInitialHackerNewsStories w net0 ids in
    let '(acts2, ids2) := handler_loop w sel ids1 in
    (emit w Connected ++ acts1 ++ acts2, ids2)
  else ([HttpError], ids).

(** ** Reading a trace *)

Definition attempt (a : Action) : option Event :=
  match a with
  | Wrote e | WriteFailed e => Some e
  | _ => None
  end.

(** The messages a call tried to write, in order. *)
Definition emitted (acts : list Action) : list Event := omap attempt acts.

Definition request (a : Action) : option Z :=
  match a with
  | GetItem id => Some id
  | _ => None
  end.

(** The items a call asked the feed for, in order. *)
Definition requested (acts : list Action) : list Z := omap request acts.

Definition new_story (e : Event) : option HNStory :=
  match e with
  | NewStory story _ => Some story
  | _ => None
  end.

(** The stories of the [new-story] messages of a trace. *)
Definition new_stories (acts : list Action) : list HNStory :=
  omap new_story (emitted acts).

(** The identifiers a trace delivers: each [new-story] message is paired
    with the item request it answers, the latest one before it. *)
Fixpoint deliveries (cur : option Z) (acts : list Action) : list Z :=
  match acts with
  | [] => []
  | GetItem id :: rest => deliveries (Some id) rest
  | a :: rest =>
      match attempt a ≫= new_story, cur with
      | Some _, Some id => id :: deliveries cur rest
      | _, _ => deliveries cur rest
      end
  end.

(** Forgetting whether a write succeeded. *)
Definition erase (a : Action) : Action :=
  match a with
  | WriteFailed e => Wrote e
  | _ => a
  end.

(** A trace in which nothing follows a failed write. *)
Fixpoint stops_at_write_error (acts : list Action) : bool :=
  match acts with
  | [] => true
  | WriteFailed _ :: rest => bool_decide (rest = [])
  | _ :: rest => stops_at_write_error rest
  end.

(** The schedule of a client that never hangs up. *)
Fixpoint no_hangup (sel : list Select) : list Select :=
  match sel with
  | [] => []
  | Hangup :: rest => no_hangup rest
  | s :: rest => s :: no_hangup rest
  end.

(** ** Specification functions *)

(** The way a list answer fails, if it does. *)
Definition list_failure (t : TopResult) : option Cause :=
  match t with
  | TopFetchErr => Some Fetching
  | TopDecodeErr => Some Decoding
  | TopOk _ => None
  end.

(** The first occurrence of every element, in order. *)
Fixpoint first_occ (l : list Z) : list Z :=
  match l with
  | [] => []
  | x :: l' => x :: filter (λ y, y ≠ x) (first_occ l')
  end.

(** The candidates that are not in the table, repeats included. *)
Definition absent (ids : SeenSet) (candidates : list Z) : list Z :=
  filter (λ id, id ∉ ids) candidates.

(** ** Concrete inputs *)

Definition story_of (id : Z) : HNStory :=
  mkStory id "Foo" "http://x" "pg" 1 "story".

Definition job_of (id : Z) : HNStory :=
  mkStory id "Hiring" "http://y" "pg" 1 "job".

(** A feed whose list is [l] and whose every item is a well-formed story. *)
Definition feed (l : list Z) : World :=
  mkWorld (TopOk l) (λ _ id, ItemOk (story_of id)) (λ _, Some "{}").

(** The same feed, except that item 2 is a job posting. *)
Definition feed_job2 (l : list Z) : World :=
  mkWorld (TopOk l)
    (λ _ id, ItemOk (if decide (id = 2) then job_of id else story_of id))
    (λ _, Some "{}").

(** A feed whose list is [l] and whose every item is a job posting. *)
Definition feed_jobs (l : list Z) : World :=
  mkWorld (TopOk l) (λ _ id, ItemOk (job_of id)) (λ _, Some "{}").

(** A feed whose list cannot be fetched. *)
Definition feed_down : World :=
  mkWorld TopFetchErr (λ _ _, ItemFetchErr) (λ _, None).

Definition open_conn : Conn := mkConn false.
Definition closed_conn : Conn := mkConn true.

(** ** More ways to read a run *)

Definition world_of (c : Call) : World :=
  match c with
  | Initial _ net | Delta _ net => net
  end.

(** What the [k]-th iteration of either item loop, asking for [id], writes:
    nothing for a skipped item, otherwise one message. *)
Definition outcome (net : World) (k : nat) (id : Z) : option Event :=
  match item net k id with
  | ItemFetchErr => Some (StoryError id Fetching)
  | ItemDecodeErr => Some (StoryError id Decoding)
  | ItemOk story =>
      if skipped story then None
      else match marshal net story with
           | None => Some (StoryError id Marshalling)
           | Some data => Some (NewStory story data)
           end
  end.

Definition is_list_request (a : Action) : bool :=
  match a with
  | GetTop => true
  | _ => false
  end.

(** The number of times a trace asks for the list of top stories. *)
Definition list_requests (acts : list Action) : nat :=
  length (filter (λ a, is_list_request a = true) acts).

(** The number of ticks a handler serves: those before the first [Done]. *)
Fixpoint ticks (sel : list Select) : nat :=
  match sel with
  | [] => 0
  | Done :: _ => 0
  | Tick _ :: rest => S (ticks rest)
  | _ :: rest => ticks rest
  end.

(** ** The statistics sampler *)

Section StatsSampler.

(** Go's [float64]. The sampler copies such values and never computes with
    them; [zero] is the literal [0.0] of illu.go:89. *)
Variable float64 : Type.
Variable zero : float64.

(** The fields the handler reads of gopsutil's [load.AvgStat]. *)
Record AvgStat := mkAvgStat {
  avg_Load1 : float64;
  avg_Load5 : float64;
  avg_Load15 : float64
}.

(** The fields the handler reads of [mem.VirtualMemoryStat],
    [mem.SwapMemoryStat] and [disk.UsageStat]; [Used] and [Total] are
    [uint64] byte counts. *)
Record UsageStat := mkUsageStat {
  Used : Z;
  Total : Z;
  UsedPercent : float64
}.

(** [host.TemperatureStat]. *)
Record TemperatureStat := mkTemperatureStat {
  SensorKey : string;
  Temperature : float64
}.

(** [Stats] (illu.go:28). *)
Record Stats := mkStats {
  CPUPercent : float64;
  CPUCores : Z;
  Load1 : float64;
  Load5 : float64;
  Load15 : float64;
  MemoryUsed : Z;
  MemoryTotal : Z;
  MemoryPercent : float64;
  SwapUsed : Z;
  SwapTotal : Z;
  SwapPercent : float64;
  TempC : float64;
  DiskUsed : Z;
  DiskTotal : Z;
  DiskPercent : float64
}.

(** What the seven calls of illu.go:81-87 return in one iteration. Their
    errors are dropped; a call that failed leaves an empty slice or a nil
    pointer behind. *)
Record Readings := mkReadings {
  cpuPercent : list float64;
  cpuCores : Z;
  loadAvg : option AvgStat;
  vmem : option UsageStat;
  swap : option UsageStat;
  sensors : list TemperatureStat;
  disk : option UsageStat
}.

(** The test of illu.go:91. *)
Definition cpu_sensor (s : TemperatureStat) : bool :=
  bool_decide (SensorKey s = "Package id 0")
  || bool_decide (SensorKey s = "Tdie")
  || bool_decide (SensorKey s = "coretemp").

(** illu.go:89-95: [temp] after the loop over the sensors, which stops at
    the first one it accepts. *)
Fixpoint pick_temp (sensors : list TemperatureStat) : float64 :=
  match sensors with
  | [] => zero
  | s :: rest => if cpu_sensor s then Temperature s else pick_temp rest
  end.

(** [x / (1024 * 1024)] on [uint64]: the quotient of two non-negative
    numbers, which cannot leave the type. *)
Definition MiB (x : Z) : Z := x / (1024 * 1024).

(** illu.go:97-117: the [Stats] value of one iteration. Indexing an empty
    slice and reading a field through a nil pointer panic: no value. *)
Definition sample (r : Readings) : option Stats :=
  match cpuPercent r, loadAvg r, vmem r, swap r, disk r with
  | c :: _, Some l, Some v, Some s, Some d =>
      Some {| CPUPercent := c;
              CPUCores := cpuCores r;
              Load1 := avg_Load1 l;
              Load5 := avg_Load5 l;
              Load15 := avg_Load15 l;
              MemoryUsed := MiB (Used v);
              MemoryTotal := MiB (Total v);
              MemoryPercent := UsedPercent v;
              SwapUsed := MiB (Used s);
              SwapTotal := MiB (Total s);
              SwapPercent := UsedPercent s;
              TempC := pick_temp (sensors r);
              DiskUsed := MiB (Used d);
              DiskTotal := MiB (Total d);
              DiskPercent := UsedPercent d |}
  | _, _, _, _, _ => None
  end.

End StatsSampler.

Arguments mkAvgStat {float64}.
Arguments avg_Load1 {float64}.
Arguments avg_Load5 {float64}.
Arguments avg_Load15 {float64}.
Arguments mkUsageStat {float64}.
Arguments Used {float64}.
Arguments Total {float64}.
Arguments UsedPercent {float64}.
Arguments mkTemperatureStat {float64}.
Arguments SensorKey {float64}.
Arguments Temperature {float64}.
Arguments mkStats {float64}.
Arguments CPUPercent {float64}.
Arguments CPUCores {float64}.
Arguments Load1 {float64}.
Arguments Load5 {float64}.
Arguments Load15 {float64}.
Arguments MemoryUsed {float64}.
Arguments MemoryTotal {float64}.
Arguments MemoryPercent {float64}.
Arguments SwapUsed {float64}.
Arguments SwapTotal {float64}.
Arguments SwapPercent {float64}.
Arguments TempC {float64}.
Arguments DiskUsed {float64}.
Arguments DiskTotal {float64}.
Arguments DiskPercent {float64}.
Arguments mkReadings {float64}.
Arguments cpuPercent {float64}.
Arguments cpuCores {float64}.
Arguments loadAvg {float64}.
Arguments vmem {float64}.
Arguments swap {float64}.
Arguments sensors {float64}.
Arguments disk {float64}.
Arguments cpu_sensor {float64}.
Arguments pick_temp {float64}.
Arguments sample {float64}.

(** [mib] is [bytes] in whole mebibytes, rounded down. *)
Definition floor_MiB (bytes mib : Z) : Prop :=
  mib * (1024 * 1024) ≤ bytes < (mib + 1) * (1024 * 1024).

(** The range of [uint64]. *)
Definition uint64 (x : Z) : Prop := 0 ≤ x < 2 ^ 64.

(** ** The page script of the story stream *)

(** A child node of [updates-container]: an element with its class and
    content, or a node that is not an element (text, comment). *)
Inductive Node :=
| Element (className : string) (content : string)
| NonElement.

Definition is_element (n : Node) : bool :=
  match n with
  | Element _ _ => true
  | NonElement => false
  end.

(** [updatesContainer.children]: the child nodes that are elements. *)
Definition children (childNodes : list Node) : list Node :=
  filter (λ n, is_element n = true) childNodes.

Definition displayLimit : nat := 20.

(** The loop of lines 11-13 and 45-47 of the script:
<<
  while (updatesContainer.children.length > 20) {
    updatesContainer.lastChild.remove();
  }
>>
    with a bound on the number of tests of its condition. *)
Fixpoint limit_loop (fuel : nat) (childNodes : list Node) : option (list Node) :=
  match fuel with
  | O => None
  | S fuel' =>
      if (displayLimit <? length (children childNodes))%nat
      then limit_loop fuel' (removelast childNodes)
      else Some childNodes
  end.

(** [updatesContainer.prepend(el)] followed by the loop. *)
Definition prepend_and_limit (el : Node) (childNodes : list Node)
  : option (list Node) :=
  limit_loop (S (S (length childNodes))) (el :: childNodes).

(** [addMessage] (line 5 of the script). *)
Definition addMessage (message className : string) (childNodes : list Node)
  : option (list Node) :=
  prepend_and_limit (Element ("story-item " +:+ className) message) childNodes.

(** The listener of [new-story] (line 29 of the script). [parsed] is what
    the [try] block makes of [event.data]: the markup of the story element,
    or the message of the exception thrown on the way. *)
Definition on_new_story (parsed : string + string) (childNodes : list Node)
  : option (list Node) :=
  match parsed with
  | inr markup => prepend_and_limit (Element "story-item" markup) childNodes
  | inl message =>
      addMessage ("Error processing story: " +:+ message) "error-message" childNodes
  end.

(** * Theorems *)

(** ** The delta loop *)

Section MarkAndDiff.
Implicit Types (ids : gset Z) (l acc : list Z) (id x : Z).

Lemma mark_elem x id ids : x ∈ mark id ids ↔ x = id ∨ x ∈ ids.
Proof. unfold mark. set_solver. Qed.

Lemma mark_present id ids : id ∈ ids → mark id ids = ids.
Proof. unfold mark. set_solver. Qed.

Lemma first_occ_elem x l : x ∈ first_occ l ↔ x ∈ l.
Proof.
  induction l as [|y l IH]; simpl; [done|].
  rewrite !elem_of_cons, list_elem_of_filter, IH.
  destruct (decide (x = y)); naive_solver.
Qed.

Lemma first_occ_NoDup l : NoDup (first_occ l).
Proof.
  induction l as [|y l IH]; simpl; [constructor|].
  constructor; [|by apply NoDup_filter].
  rewrite list_elem_of_filter. naive_solver.
Qed.

Lemma filter_other_id x l : x ∉ l → filter (λ y, y ≠ x) l = l.
Proof.
  induction l as [|z l IH]; intros Hx; [done|].
  apply not_elem_of_cons in Hx as [Hz Hl].
  rewrite filter_cons_True by done. by rewrite IH.
Qed.

Lemma first_occ_id l : NoDup l → first_occ l = l.
Proof.
  induction 1 as [|y l Hy _ IH]; simpl; [done|].
  by rewrite IH, filter_other_id.
Qed.

Lemma first_occ_sublist l : first_occ l `sublist_of` l.
Proof.
  induction l as [|y l IH]; simpl; [done|].
  constructor. etrans; [apply sublist_filter|done].
Qed.

Lemma absent_first_occ_cons ids x l :
  absent ids (first_occ (x :: l))
  = (if decide (x ∈ ids) then [] else [x]) ++ absent (mark x ids) (first_occ l).
Proof.
  unfold absent. simpl. rewrite filter_cons, list_filter_filter.
  assert (filter (λ y, (y ∉ ids) ∧ (y ≠ x)) (first_occ l)
          = filter (λ y, y ∉ mark x ids) (first_occ l)) as ->.
  { apply list_filter_iff. intros y. rewrite mark_elem. naive_solver. }
  by destruct (decide (x ∉ ids)), (decide (x ∈ ids)).
Qed.

Lemma absent_nil ids l : absent ids l = [] ↔ ∀ x, x ∈ l → x ∈ ids.
Proof.
  unfold absent. induction l as [|y l IH]; [by split; [intros _ x ?%elem_of_nil|]|].
  rewrite filter_cons. destruct (decide (y ∉ ids)) as [Hy|Hy].
  - split; [done|]. intros Hall. destruct Hy. apply Hall. by left.
  - rewrite IH. apply dec_stable in Hy. set_solver.
Qed.

(** The loop from any intermediate state: what it has appended so far stays,
    and the rest of the list contributes its absent first occurrences. *)
Lemma markAndDiff_fold l acc ids :
  fold_left markAndDiff_step l (acc, ids)
  = (acc ++ absent ids (first_occ l), list_to_set l ∪ ids).
Proof.
  revert acc ids. induction l as [|x l IH]; intros acc ids.
  - simpl. unfold absent. rewrite filter_nil, app_nil_r. f_equal. set_solver.
  - cbn [fold_left markAndDiff_step]. rewrite IH, absent_first_occ_cons.
    f_equal.
    + destruct (decide (x ∈ ids)); [done|]. by rewrite <-app_assoc.
    + unfold mark. set_solver.
Qed.

Lemma markAndDiff_eq ids l :
  markAndDiff ids l = (absent ids (first_occ l), list_to_set l ∪ ids).
Proof. unfold markAndDiff. by rewrite markAndDiff_fold. Qed.

Lemma markAndDiff_new_elem ids l x :
  x ∈ fst (markAndDiff ids l) ↔ x ∈ l ∧ x ∉ ids.
Proof.
  rewrite markAndDiff_eq. simpl. unfold absent.
  rewrite list_elem_of_filter, first_occ_elem. naive_solver.
Qed.

Lemma markAndDiff_new_NoDup ids l : NoDup (fst (markAndDiff ids l)).
Proof.
  rewrite markAndDiff_eq. simpl. apply NoDup_filter, first_occ_NoDup.
Qed.

Lemma markAndDiff_new_sublist ids l : fst (markAndDiff ids l) `sublist_of` l.
Proof.
  rewrite markAndDiff_eq. simpl.
  etrans; [apply sublist_filter|apply first_occ_sublist].
Qed.

Lemma markAndDiff_table_elem ids l x :
  x ∈ snd (markAndDiff ids l) ↔ x ∈ l ∨ x ∈ ids.
Proof. rewrite markAndDiff_eq. simpl. set_solver. Qed.

End MarkAndDiff.

(** ** Traces of the senders *)

Section Senders.
Implicit Types (w : Conn) (net : World) (ids : gset Z) (l : list Z) (k : nat).

Lemma emitted_app (a b : list Action) : emitted (a ++ b) = emitted a ++ emitted b.
Proof. apply omap_app. Qed.

Lemma requested_app (a b : list Action) :
  requested (a ++ b) = requested a ++ requested b.
Proof. apply omap_app. Qed.

Lemma new_stories_app (a b : list Action) :
  new_stories (a ++ b) = new_stories a ++ new_stories b.
Proof. unfold new_stories. by rewrite emitted_app, omap_app. Qed.

Lemma emit_cases w e : emit w e = [Wrote e] ∨ emit w e = [WriteFailed e].
Proof. unfold emit, Fprintf. destruct (closed w); auto. Qed.

Lemma emitted_emit w e : emitted (emit w e) = [e].
Proof. by destruct (emit_cases w e) as [-> | ->]. Qed.

Lemma requested_emit w e : requested (emit w e) = [].
Proof. by destruct (emit_cases w e) as [-> | ->]. Qed.

Lemma erase_emit w e : erase <$> emit w e = [Wrote e].
Proof. by destruct (emit_cases w e) as [-> | ->]. Qed.

(** The four ways an iteration of either item loop can go. *)
Ltac body_cases net k id :=
  let story := fresh "story" in
  let Hitem := fresh "Hitem" in
  let Hskip := fresh "Hskip" in
  let Hjson := fresh "Hjson" in
  destruct (item net k id) as [| |story] eqn:Hitem;
  [| |destruct (skipped story) eqn:Hskip;
      [|destruct (marshal net story) eqn:Hjson]].

Lemma requested_delta_body w net k id : requested (delta_body w net k id) = [id].
Proof.
  unfold delta_body. body_cases net k id; try done;
    change (requested (GetItem id :: ?t)) with (id :: requested t);
    by rewrite requested_emit.
Qed.

Lemma requested_delta_loop w net k l : requested (delta_loop w net k l) = l.
Proof.
  revert k. induction l as [|id l IH]; intros k; simpl; [done|].
  by rewrite requested_app, requested_delta_body, IH.
Qed.

Lemma new_stories_delta_body w net k id :
  (length (new_stories (delta_body w net k id)) ≤ 1)%nat.
Proof.
  unfold delta_body, new_stories.
  body_cases net k id; try (simpl; lia);
    change (emitted (GetItem id :: ?t)) with (emitted t);
    rewrite emitted_emit; simpl; lia.
Qed.

Lemma new_stories_delta_loop w net k l :
  (length (new_stories (delta_loop w net k l)) ≤ length l)%nat.
Proof.
  revert k. induction l as [|id l IH]; intros k; simpl; [done|].
  rewrite new_stories_app, length_app.
  pose proof (new_stories_delta_body w net k id). specialize (IH (S k)). lia.
Qed.

(** Inside an iteration for [id], the only delivery is of [id] itself. *)
Lemma deliveries_delta_body w net k id cur (rest : list Action) :
  deliveries cur (delta_body w net k id ++ rest) = deliveries (Some id) rest
  ∨ deliveries cur (delta_body w net k id ++ rest) = id :: deliveries (Some id) rest.
Proof.
  unfold delta_body. body_cases net k id; try (left; reflexivity);
    match goal with |- context [emit w ?e] =>
      destruct (emit_cases w e) as [-> | ->] end; simpl; auto.
Qed.

Lemma deliveries_delta_loop w net k l cur :
  deliveries cur (delta_loop w net k l) `sublist_of` l.
Proof.
  revert k cur. induction l as [|id l IH]; intros k cur; simpl; [done|].
  destruct (deliveries_delta_body w net k id cur (delta_loop w net (S k) l))
    as [-> | ->].
  - by apply sublist_cons.
  - by apply sublist_skip.
Qed.

Lemma erase_delta_loop w1 w2 net k l :
  erase <$> delta_loop w1 net k l = erase <$> delta_loop w2 net k l.
Proof.
  revert k. induction l as [|id l IH]; intros k; simpl; [done|].
  rewrite !fmap_app, IH. f_equal.
  unfold delta_body. body_cases net k id; try done;
    by rewrite !fmap_cons, !erase_emit.
Qed.

Lemma truncated_take l : truncated l = take maxNewStoriesToSend l.
Proof.
  unfold truncated. case_match; [done|].
  symmetry. apply take_ge. apply Nat.ltb_ge in H. lia.
Qed.

Lemma storiesToFetch_take l : storiesToFetch l = take initialStoriesLimit l.
Proof.
  unfold storiesToFetch. case_match; [done|].
  symmetry. apply take_ge. apply Nat.ltb_ge in H. lia.
Qed.

(** The initial loop: what it requests, and what it leaves in the table. *)
Lemma initial_loop_requested w net k l ids :
  requested (fst (initial_loop w net k l ids)) = l.
Proof.
  revert k ids. induction l as [|id l IH]; intros k ids; simpl; [done|].
  destruct (initial_body w net k id ids) as [acts ids1] eqn:Hbody.
  specialize (IH (S k) ids1).
  destruct (initial_loop w net (S k) l ids1) as [acts' ids2]. simpl in *.
  rewrite requested_app, IH. f_equal.
  unfold initial_body in Hbody.
  body_cases net k id; inversion Hbody; subst; try done;
    change (requested (GetItem id :: ?t)) with (id :: requested t);
    by rewrite requested_emit.
Qed.

Lemma initial_body_table w net k id ids :
  snd (initial_body w net k id ids)
  = list_to_set (ID <$> new_stories (fst (initial_body w net k id ids))) ∪ ids.
Proof.
  unfold initial_body, new_stories.
  body_cases net k id; simpl;
    try (change (emitted (GetItem id :: ?t)) with (emitted t);
         rewrite emitted_emit; simpl);
    unfold mark; set_solver.
Qed.

Lemma initial_loop_table w net k l ids :
  snd (initial_loop w net k l ids)
  = list_to_set (ID <$> new_stories (fst (initial_loop w net k l ids))) ∪ ids.
Proof.
  revert k ids. induction l as [|id l IH]; intros k ids; simpl; [set_solver|].
  pose proof (initial_body_table w net k id ids) as Hb.
  destruct (initial_body w net k id ids) as [acts ids1].
  specialize (IH (S k) ids1).
  destruct (initial_loop w net (S k) l ids1) as [acts' ids2]. simpl in *.
  rewrite IH, Hb, new_stories_app, fmap_app, list_to_set_app_L. set_solver.
Qed.

Lemma erase_initial_loop w1 w2 net k l ids :
  erase <$> fst (initial_loop w1 net k l ids)
  = erase <$> fst (initial_loop w2 net k l ids)
  ∧ snd (initial_loop w1 net k l ids) = snd (initial_loop w2 net k l ids).
Proof.
  revert k ids. induction l as [|id l IH]; intros k ids; simpl; [done|].
  assert (erase <$> fst (initial_body w1 net k id ids)
          = erase <$> fst (initial_body w2 net k id ids)
          ∧ snd (initial_body w1 net k id ids)
            = snd (initial_body w2 net k id ids)) as [Ha Hi].
  { unfold initial_body. body_cases net k id; simpl; try done;
      by rewrite !erase_emit. }
  destruct (initial_body w1 net k id ids) as [a1 i1].
  destruct (initial_body w2 net k id ids) as [a2 i2]. simpl in *. subst i2.
  destruct (IH (S k) i1) as [Ha' Hi'].
  destruct (initial_loop w1 net (S k) l i1) as [b1 j1].
  destruct (initial_loop w2 net (S k) l i1) as [b2 j2]. simpl in *.
  by rewrite !fmap_app, Ha, Ha'.
Qed.

End Senders.

(** ** The senders as steps on the table *)

Section Steps.
Implicit Types (w : Conn) (net : World) (ids : gset Z) (l : list Z) (c : Call).

(** A periodic cycle whose list arrives: the heartbeat when the delta is
    empty, otherwise the item loop over the first five new identifiers; the
    table gains the whole list either way. *)
Lemma sendDelta_ok w net ids l :
  topstories net = TopOk l →
  sendDeltaHackerNewsStories w net ids
  = (GetTop :: match fst (markAndDiff ids l) with
               | [] => emit w NoNewData
               | _ :: _ =>
                   delta_loop w net 0 (take maxNewStoriesToSend (fst (markAndDiff ids l)))
               end,
     list_to_set l ∪ ids).
Proof.
  intros Htop. unfold sendDeltaHackerNewsStories. rewrite Htop.
  rewrite markAndDiff_eq. simpl.
  destruct (absent ids (first_occ l)) as [|x new] eqn:Hnew; simpl; [done|].
  by rewrite truncated_take.
Qed.

Lemma sendDelta_mono w net ids : ids ⊆ snd (sendDeltaHackerNewsStories w net ids).
Proof.
  destruct (topstories net) as [| |l] eqn:Htop.
  - unfold sendDeltaHackerNewsStories. by rewrite Htop.
  - unfold sendDeltaHackerNewsStories. by rewrite Htop.
  - rewrite (sendDelta_ok _ _ _ l) by done. simpl. set_solver.
Qed.

Lemma sendInitial_mono w net ids : ids ⊆ snd (sendInitialHackerNewsStories w net ids).
Proof.
  unfold sendInitialHackerNewsStories.
  destruct (topstories net) as [| |l]; [done|done|].
  pose proof (initial_loop_table w net 0 (storiesToFetch l) ids) as Ht.
  destruct (initial_loop w net 0 (storiesToFetch l) ids) as [acts ids'].
  simpl in *. set_solver.
Qed.

Lemma call_mono c ids : ids ⊆ snd (call c ids).
Proof. destruct c; [apply sendInitial_mono|apply sendDelta_mono]. Qed.

Lemma run_mono calls ids : ids ⊆ snd (run calls ids).
Proof.
  revert ids. induction calls as [|c calls IH]; intros ids; simpl; [done|].
  pose proof (call_mono c ids) as Hc.
  destruct (call c ids) as [acts ids1]. specialize (IH ids1).
  destruct (run calls ids1) as [traces ids2]. simpl in *. set_solver.
Qed.

Lemma handler_loop_mono w sel ids : ids ⊆ snd (handler_loop w sel ids).
Proof.
  revert w ids. induction sel as [|s sel IH]; intros w ids; [done|].
  destruct s as [net| | |c]; simpl.
  - pose proof (sendDelta_mono w net ids) as Hd.
    destruct (sendDeltaHackerNewsStories w net ids) as [acts ids1].
    specialize (IH w ids1).
    destruct (handler_loop w sel ids1) as [acts' ids2]. simpl in *. set_solver.
  - done.
  - apply IH.
  - etrans; [apply (call_mono c)|apply IH].
Qed.

(** What a cycle reports as new was not in the table, and is in it after. *)
Lemma newStoryIDs_fresh c ids x : x ∈ newStoryIDs_of c ids → x ∉ ids.
Proof.
  destruct c as [w net|w net]; simpl; [by intros ?%elem_of_nil|].
  destruct (topstories net); try by intros ?%elem_of_nil.
  rewrite markAndDiff_new_elem. tauto.
Qed.

Lemma newStoryIDs_marked c ids x : x ∈ newStoryIDs_of c ids → x ∈ snd (call c ids).
Proof.
  destruct c as [w net|w net]; simpl; [by intros ?%elem_of_nil|].
  destruct (topstories net) as [| |l] eqn:Htop; try by intros ?%elem_of_nil.
  rewrite markAndDiff_new_elem, (sendDelta_ok _ _ _ l) by done. simpl.
  set_solver.
Qed.

Lemma deltas_fresh calls ids j b x :
  deltas calls ids !! j = Some b → x ∈ b → x ∉ ids.
Proof.
  revert ids j. induction calls as [|c calls IH]; intros ids j; [done|].
  destruct j as [|j]; simpl.
  - intros [= <-]. apply newStoryIDs_fresh.
  - intros Hb Hx Hin. eapply IH; [done..|]. by apply call_mono.
Qed.

Lemma deltas_ordered calls ids i j a b x :
  (i < j)%nat →
  deltas calls ids !! i = Some a → deltas calls ids !! j = Some b →
  x ∈ a → x ∉ b.
Proof.
  revert ids i j. induction calls as [|c calls IH]; intros ids i j Hij; [done|].
  destruct j as [|j]; [lia|]. destruct i as [|i]; simpl.
  - intros [= <-] Hb Ha Hx.
    eapply deltas_fresh; [done..|]. by apply newStoryIDs_marked.
  - apply IH. lia.
Qed.

(** The items a cycle asks for are among its new identifiers. *)
Lemma sendDelta_requested w net ids l :
  topstories net = TopOk l →
  requested (fst (sendDeltaHackerNewsStories w net ids))
  = take maxNewStoriesToSend (fst (markAndDiff ids l)).
Proof.
  intros Htop. rewrite (sendDelta_ok _ _ _ l) by done. simpl.
  destruct (fst (markAndDiff ids l)) as [|x new] eqn:Hnew.
  - by rewrite requested_emit.
  - change (requested (GetTop :: ?t)) with (requested t).
    by rewrite requested_delta_loop.
Qed.

Lemma sendDelta_requested_fresh w net ids x :
  x ∈ requested (fst (sendDeltaHackerNewsStories w net ids)) → x ∉ ids.
Proof.
  destruct (topstories net) as [| |l] eqn:Htop.
  - unfold sendDeltaHackerNewsStories. rewrite Htop. simpl.
    change (requested (GetTop :: ?t)) with (requested t).
    rewrite requested_emit. by intros ?%elem_of_nil.
  - unfold sendDeltaHackerNewsStories. rewrite Htop. simpl.
    change (requested (GetTop :: ?t)) with (requested t).
    rewrite requested_emit. by intros ?%elem_of_nil.
  - rewrite (sendDelta_requested _ _ _ l) by done.
    intros Hx. eapply elem_of_sublist in Hx; [|apply sublist_take].
    apply markAndDiff_new_elem in Hx. tauto.
Qed.

Lemma sendDelta_deliveries w net ids :
  deliveries None (fst (sendDeltaHackerNewsStories w net ids))
  `sublist_of` requested (fst (sendDeltaHackerNewsStories w net ids)).
Proof.
  destruct (topstories net) as [| |l] eqn:Htop.
  - unfold sendDeltaHackerNewsStories. rewrite Htop. simpl.
    by destruct (emit_cases w (Error Fetching)) as [-> | ->].
  - unfold sendDeltaHackerNewsStories. rewrite Htop. simpl.
    by destruct (emit_cases w (Error Decoding)) as [-> | ->].
  - rewrite (sendDelta_requested _ _ _ l) by done.
    rewrite (sendDelta_ok _ _ _ l) by done. simpl.
    destruct (fst (markAndDiff ids l)) as [|x new] eqn:Hnew.
    + by destruct (emit_cases w NoNewData) as [-> | ->].
    + apply deliveries_delta_loop.
Qed.

End Steps.

(** ** The seen-set tracker *)

(** C1, as the code has it. For every candidate list and every table, the
    delta loop returns the candidates that were absent from the table when
    the call started, in input order and each of them once, at its first
    occurrence; when no candidate is repeated this is exactly the
    subsequence of absent candidates. After the call the table holds its
    former identifiers and every candidate, new or not. *)
Theorem markAndDiff_contract (ids : gset Z) (candidates : list Z) :
  fst (markAndDiff ids candidates) = absent ids (first_occ candidates)
  ∧ (NoDup candidates → fst (markAndDiff ids candidates) = absent ids candidates)
  ∧ (∀ id, id ∈ candidates → id ∈ snd (markAndDiff ids candidates))
  ∧ (∀ id, id ∈ snd (markAndDiff ids candidates) ↔ id ∈ candidates ∨ id ∈ ids).
Proof.
  split_and!.
  - by rewrite markAndDiff_eq.
  - intros Hnd. by rewrite markAndDiff_eq, first_occ_id.
  - intros id Hid. apply markAndDiff_table_elem. by left.
  - intros id. apply markAndDiff_table_elem.
Qed.

Lemma markAndDiff_contract_witness :
  NoDup [4; 1; 5 : Z]
  ∧ fst (markAndDiff {[1]} [4; 1; 5]) = [4; 5]
  ∧ 1 ∈ snd (markAndDiff {[1]} [4; 1; 5]).
Proof.
  assert (NoDup [4; 1; 5 : Z]) as Hnd by (apply (bool_decide_unpack _); vm_compute; exact I).
  destruct (markAndDiff_contract {[1]} [4; 1; 5]) as (_ & Hnew & Hall & _).
  split_and!.
  - exact Hnd.
  - rewrite (Hnew Hnd). vm_compute. reflexivity.
  - apply Hall. apply (bool_decide_unpack _). vm_compute. exact I.
Defined.

(** C1 as stated fails on a repeated candidate: both occurrences of 1 were
    absent when the call started, and the loop reports only the first. *)
Lemma markAndDiff_repeated_candidate :
  absent init [1; 1] = [1; 1] ∧ fst (markAndDiff init [1; 1]) = [1]
  ∧ fst (markAndDiff init [1; 1]) ≠ absent init [1; 1].
Proof. vm_compute. split_and!; [reflexivity|reflexivity|discriminate]. Qed.

(** C2. In any run of the process (calls of either sender by any sessions,
    in the order the mutex gives them), the deltas computed by two different
    calls share no identifier. *)
Theorem deltas_pairwise_disjoint (calls : list Call) (ids : gset Z)
  (i j : nat) (a b : list Z) (x : Z) :
  i ≠ j →
  deltas calls ids !! i = Some a →
  deltas calls ids !! j = Some b →
  x ∈ a → x ∉ b.
Proof.
  intros Hij Ha Hb Hx Hx'.
  destruct (decide (i < j)%nat).
  - by eapply (deltas_ordered calls ids i j a b x).
  - eapply (deltas_ordered calls ids j i b a x); [lia|done..].
Qed.

Lemma deltas_pairwise_disjoint_witness :
  deltas [Delta open_conn (feed [1; 2]); Delta closed_conn (feed [2; 3])] init !! 0%nat
    = Some [1; 2]
  ∧ deltas [Delta open_conn (feed [1; 2]); Delta closed_conn (feed [2; 3])] init !! 1%nat
    = Some [3]
  ∧ 2 ∉ [3 : Z].
Proof.
  assert (deltas [Delta open_conn (feed [1; 2]); Delta closed_conn (feed [2; 3])] init
            !! 0%nat = Some [1; 2]) as H0 by (vm_compute; reflexivity).
  assert (deltas [Delta open_conn (feed [1; 2]); Delta closed_conn (feed [2; 3])] init
            !! 1%nat = Some [3]) as H1 by (vm_compute; reflexivity).
  split_and!; [exact H0|exact H1|].
  apply (deltas_pairwise_disjoint _ _ 0%nat 1%nat _ _ 2 ltac:(lia) H0 H1).
  apply (bool_decide_unpack _). vm_compute. exact I.
Defined.

(** C3. The table is empty when the process starts; every call of a sender
    (its error paths included), every run of calls, every session handler
    and the delta loop itself leave in the table all it held before; and
    marking an identifier that is already there changes nothing. *)
Theorem seen_set_monotone :
  init = ∅
  ∧ (∀ c ids, ids ⊆ snd (call c ids))
  ∧ (∀ calls ids, ids ⊆ snd (run calls ids))
  ∧ (∀ flusher w net0 sel ids, ids ⊆ snd (hnEventsHandler flusher w net0 sel ids))
  ∧ (∀ ids l, ids ⊆ snd (markAndDiff ids l))
  ∧ (∀ id ids, id ∈ ids → mark id ids = ids).
Proof.
  split_and!.
  - reflexivity.
  - apply call_mono.
  - apply run_mono.
  - intros flusher w net0 sel ids. unfold hnEventsHandler.
    destruct flusher; [|done].
    pose proof (sendInitial_mono w net0 ids) as Hi.
    destruct (sendInitialHackerNewsStories w net0 ids) as [acts1 ids1].
    pose proof (handler_loop_mono w sel ids1) as Hl.
    destruct (handler_loop w sel ids1) as [acts2 ids2]. simpl in *. set_solver.
  - intros ids l. rewrite markAndDiff_eq. simpl. set_solver.
  - apply mark_present.
Qed.

Lemma seen_set_monotone_witness : mark 7 {[7; 9]} = ({[7; 9]} : gset Z).
Proof.
  destruct seen_set_monotone as (_ & _ & _ & _ & _ & Hmark).
  apply Hmark. apply (bool_decide_unpack _). vm_compute. exact I.
Defined.

(** C4, as the code has it. After [markAndDiff A], [markAndDiff B] returns
    the identifiers of [B] that are neither in [A] nor in the table before
    the first call, each once, at its first occurrence in [B]. On a table
    that starts empty this is the difference of [B] and [A], and when [B]
    has no repeated identifier it is exactly the subsequence of [B] outside
    [A]. The first call on an empty table returns [X] without its repeats,
    which is [X] when it has none, and a second call with the same [X]
    returns the empty list from any table. *)
Theorem delta_set_difference (ids : gset Z) (A B X : list Z) :
  fst (markAndDiff (snd (markAndDiff ids A)) B)
    = filter (λ x, (x ∉ A) ∧ (x ∉ ids)) (first_occ B)
  ∧ fst (markAndDiff (snd (markAndDiff init A)) B) = filter (λ x, x ∉ A) (first_occ B)
  ∧ (NoDup B → fst (markAndDiff (snd (markAndDiff init A)) B) = filter (λ x, x ∉ A) B)
  ∧ fst (markAndDiff init X) = first_occ X
  ∧ (NoDup X → fst (markAndDiff init X) = X)
  ∧ fst (markAndDiff (snd (markAndDiff ids X)) X) = [].
Proof.
  assert (∀ s, fst (markAndDiff (snd (markAndDiff s A)) B)
               = filter (λ x, (x ∉ A) ∧ (x ∉ s)) (first_occ B)) as Hgen.
  { intros s. rewrite !markAndDiff_eq. simpl. unfold absent.
    apply list_filter_iff. intros x. set_solver. }
  assert (fst (markAndDiff (snd (markAndDiff init A)) B)
          = filter (λ x, x ∉ A) (first_occ B)) as Hempty.
  { rewrite Hgen. apply list_filter_iff. intros x. unfold init. set_solver. }
  assert (fst (markAndDiff init X) = first_occ X) as Hfirst.
  { rewrite markAndDiff_eq. simpl. unfold absent, init.
    induction (first_occ X) as [|y l IH]; [done|].
    rewrite filter_cons_True by set_solver. by rewrite IH. }
  split_and!.
  - apply Hgen.
  - apply Hempty.
  - intros Hnd. by rewrite Hempty, first_occ_id.
  - apply Hfirst.
  - intros Hnd. by rewrite Hfirst, first_occ_id.
  - rewrite !markAndDiff_eq. simpl. unfold absent.
    apply absent_nil. intros x Hx. apply (proj1 (first_occ_elem _ _)) in Hx.
    apply elem_of_union. left. by apply elem_of_list_to_set.
Qed.

Lemma delta_set_difference_witness :
  NoDup [1; 2; 3 : Z]
  ∧ fst (markAndDiff (snd (markAndDiff init [1])) [1; 2; 3]) = [2; 3]
  ∧ fst (markAndDiff init [1; 2; 3]) = [1; 2; 3].
Proof.
  assert (NoDup [1; 2; 3 : Z]) as Hnd
    by (apply (bool_decide_unpack _); vm_compute; exact I).
  destruct (delta_set_difference init [1] [1; 2; 3] [1; 2; 3])
    as (_ & _ & Hdiff & _ & Hfirst & _).
  split_and!.
  - exact Hnd.
  - rewrite (Hdiff Hnd). vm_compute. reflexivity.
  - exact (Hfirst Hnd).
Defined.

(** C4 as stated fails on repeated identifiers: from the empty table the
    first call with [1; 1] does not return [1; 1], and with [A = [1]]
    included in [B = [1; 2; 2]] the second call does not return the
    subsequence [2; 2] of [B] outside [A]. *)
Lemma delta_repeated_identifier :
  fst (markAndDiff init [1; 1]) ≠ [1; 1]
  ∧ [1] ⊆ [1; 2; 2 : Z]
  ∧ fst (markAndDiff (snd (markAndDiff init [1])) [1; 2; 2])
    ≠ filter (λ x, x ∉ [1 : Z]) [1; 2; 2].
Proof.
  split_and!.
  - vm_compute. discriminate.
  - intros x ->%list_elem_of_singleton. left.
  - vm_compute. discriminate.
Qed.

(** ** The periodic cycle and the initial phase *)

Section Cycles.
Implicit Types (w : Conn) (net : World) (ids : gset Z) (l : list Z) (k : nat).

Lemma delta_loop_all_skipped w net k l :
  (∀ j id, l !! j = Some id →
     ∃ story, item net (k + j) id = ItemOk story ∧ skipped story = true) →
  emitted (delta_loop w net k l) = [].
Proof.
  revert k. induction l as [|id l IH]; intros k Hall; simpl; [done|].
  rewrite emitted_app, IH.
  - destruct (Hall 0%nat id eq_refl) as (story & Hitem & Hskip).
    rewrite Nat.add_0_r in Hitem. unfold delta_body. by rewrite Hitem, Hskip.
  - intros j id' Hj. specialize (Hall (S j) id' Hj).
    by rewrite Nat.add_succ_r in Hall.
Qed.

Lemma initial_loop_all_delivered w net k l ids :
  (∀ j id, l !! j = Some id →
     ∃ story data, item net (k + j) id = ItemOk story ∧ skipped story = false
                   ∧ marshal net story = Some data ∧ ID story = id) →
  ID <$> new_stories (fst (initial_loop w net k l ids)) = l.
Proof.
  revert k ids. induction l as [|id l IH]; intros k ids Hall; simpl; [done|].
  destruct (Hall 0%nat id eq_refl) as (story & data & Hitem & Hskip & Hjson & Hid).
  rewrite Nat.add_0_r in Hitem.
  unfold initial_body. rewrite Hitem, Hskip, Hjson.
  specialize (IH (S k) (mark (ID story) ids)).
  destruct (initial_loop w net (S k) l (mark (ID story) ids)) as [acts' ids2].
  cbn [fst] in *. rewrite new_stories_app, fmap_app, IH.
  - unfold new_stories.
    change (emitted (GetItem id :: ?t)) with (emitted t).
    rewrite emitted_emit. simpl. by rewrite Hid.
  - intros j id' Hj. specialize (Hall (S j) id' Hj).
    by rewrite Nat.add_succ_r in Hall.
Qed.

End Cycles.

(** C5. When the list of a periodic cycle cannot be fetched or decoded, the
    cycle writes one [error] message and nothing else, asks for no item, and
    returns the table it was given, so that a later cycle computes the delta
    it would have computed without the failed one. *)
Theorem delta_list_failure (w : Conn) (net : World) (ids : gset Z) (cause : Cause) :
  list_failure (topstories net) = Some cause →
  emitted (fst (sendDeltaHackerNewsStories w net ids)) = [Error cause]
  ∧ requested (fst (sendDeltaHackerNewsStories w net ids)) = []
  ∧ snd (sendDeltaHackerNewsStories w net ids) = ids
  ∧ ∀ w' net', newStoryIDs_of (Delta w' net') (snd (sendDeltaHackerNewsStories w net ids))
               = newStoryIDs_of (Delta w' net') ids.
Proof.
  intros Htop. unfold sendDeltaHackerNewsStories.
  destruct (topstories net); simplify_eq/=;
    (split_and!; [| | |done]);
    change (emitted (GetTop :: ?t)) with (emitted t);
    change (requested (GetTop :: ?t)) with (requested t);
    by rewrite ?emitted_emit, ?requested_emit.
Qed.

Lemma delta_list_failure_witness :
  list_failure (topstories feed_down) = Some Fetching
  ∧ emitted (fst (sendDeltaHackerNewsStories open_conn feed_down {[1; 2; 3]}))
    = [Error Fetching]
  ∧ snd (sendDeltaHackerNewsStories open_conn feed_down {[1; 2; 3]}) = {[1; 2; 3]}.
Proof.
  destruct (delta_list_failure open_conn feed_down {[1; 2; 3]} Fetching eq_refl)
    as (Hev & _ & Hids & _).
  split_and!; [reflexivity|exact Hev|exact Hids].
Defined.

Lemma take_min_length (n : nat) (l : list Z) : take (min (length l) n) l = take n l.
Proof.
  destruct (decide (n ≤ length l)%nat).
  - by rewrite Nat.min_r.
  - rewrite Nat.min_l by lia. rewrite !take_ge by lia. done.
Qed.

(** C6, as the code has it. When the list [L] of a fresh session arrives,
    the initial phase asks for exactly the first [min (length L) 10]
    identifiers, in order, and adds to the table the identifier carried by
    each story it writes as [new-story], and nothing else: an item that
    could not be fetched or decoded, or that was skipped, is not marked.
    When every item of the batch is a deliverable story carrying the
    identifier it was asked under, the table afterwards holds the whole
    batch. *)
Theorem initial_phase_seeding (w : Conn) (net : World) (ids : gset Z) (L : list Z) :
  topstories net = TopOk L →
  requested (fst (sendInitialHackerNewsStories w net ids))
    = take (min (length L) initialStoriesLimit) L
  ∧ snd (sendInitialHackerNewsStories w net ids)
    = list_to_set (ID <$> new_stories (fst (sendInitialHackerNewsStories w net ids))) ∪ ids
  ∧ ((∀ k id, take initialStoriesLimit L !! k = Some id →
        ∃ story data, item net k id = ItemOk story ∧ skipped story = false
                      ∧ marshal net story = Some data ∧ ID story = id) →
     ∀ id, id ∈ take (min (length L) initialStoriesLimit) L →
           id ∈ snd (sendInitialHackerNewsStories w net ids)).
Proof.
  intros Htop. rewrite take_min_length.
  unfold sendInitialHackerNewsStories. rewrite Htop, storiesToFetch_take.
  pose proof (initial_loop_requested w net 0 (take initialStoriesLimit L) ids) as Hreq.
  pose proof (initial_loop_table w net 0 (take initialStoriesLimit L) ids) as Htab.
  pose proof (initial_loop_all_delivered w net 0 (take initialStoriesLimit L) ids) as Hall.
  destruct (initial_loop w net 0 (take initialStoriesLimit L) ids) as [acts ids'].
  cbn [fst snd] in *.
  change (requested (GetTop :: acts)) with (requested acts).
  change (new_stories (GetTop :: acts)) with (new_stories acts).
  split_and!; [done..|].
  intros Hgood id Hid. rewrite Htab, Hall by done.
  apply elem_of_union. left. by apply elem_of_list_to_set.
Qed.

Lemma initial_phase_seeding_witness :
  topstories (feed [1; 2; 3]) = TopOk [1; 2; 3]
  ∧ requested (fst (sendInitialHackerNewsStories open_conn (feed [1; 2; 3]) init))
    = [1; 2; 3]
  ∧ ∀ id, id ∈ [1; 2; 3 : Z] →
          id ∈ snd (sendInitialHackerNewsStories open_conn (feed [1; 2; 3]) init).
Proof.
  destruct (initial_phase_seeding open_conn (feed [1; 2; 3]) init [1; 2; 3] eq_refl)
    as (Hreq & _ & Hall).
  split_and!; [reflexivity|exact Hreq|].
  apply Hall. intros k id _.
  exists (story_of id), "{}"%string. split_and!; reflexivity.
Defined.

(** C6 as stated fails when an item of the batch is not sent: with the list
    [1; 2; 3] and item 2 a job posting, items 1 and 3 are written and 2 is
    processed but not put in the table. *)
Lemma initial_unsent_not_marked :
  topstories (feed_job2 [1; 2; 3]) = TopOk [1; 2; 3]
  ∧ 2 ∈ take (min (length [1; 2; 3 : Z]) initialStoriesLimit) [1; 2; 3 : Z]
  ∧ emitted (fst (sendInitialHackerNewsStories open_conn (feed_job2 [1; 2; 3]) init))
    = [NewStory (story_of 1) "{}"; NewStory (story_of 3) "{}"]
  ∧ 2 ∉ snd (sendInitialHackerNewsStories open_conn (feed_job2 [1; 2; 3]) init).
Proof.
  split_and!.
  - reflexivity.
  - apply (bool_decide_unpack _). vm_compute. exact I.
  - vm_compute. reflexivity.
  - apply (bool_decide_unpack _). vm_compute. exact I.
Qed.

(** C7. In a periodic cycle whose list [L] arrives: at most five
    [new-story] messages are written; the items asked for are the first five
    new identifiers, which come in the order of [L], and the identifiers
    delivered are among them in that order; every identifier of [L] is in
    the table afterwards. A new identifier beyond the fifth is neither asked
    for nor delivered in this cycle, is in the table, and whatever calls any
    sessions make afterwards, no later periodic cycle asks for it or
    delivers it. *)
Theorem periodic_bound_and_marking (w : Conn) (net : World) (ids : gset Z) (L : list Z) :
  topstories net = TopOk L →
  let r := sendDeltaHackerNewsStories w net ids in
  let new := fst (markAndDiff ids L) in
  (length (new_stories (fst r)) ≤ maxNewStoriesToSend)%nat
  ∧ requested (fst r) = take maxNewStoriesToSend new
  ∧ new `sublist_of` L
  ∧ deliveries None (fst r) `sublist_of` take maxNewStoriesToSend new
  ∧ (∀ id, id ∈ L → id ∈ snd r)
  ∧ ∀ x, x ∈ drop maxNewStoriesToSend new →
      (x ∉ requested (fst r)) ∧ (x ∉ deliveries None (fst r)) ∧ x ∈ snd r
      ∧ ∀ calls w' net',
          let later := sendDeltaHackerNewsStories w' net' (snd (run calls (snd r))) in
          (x ∉ requested (fst later)) ∧ (x ∉ deliveries None (fst later)).
Proof.
  intros Htop r new.
  assert (requested (fst r) = take maxNewStoriesToSend new) as Hreq
    by by apply sendDelta_requested.
  assert (deliveries None (fst r) `sublist_of` take maxNewStoriesToSend new) as Hdel
    by (rewrite <-Hreq; apply sendDelta_deliveries).
  assert (∀ id, id ∈ L → id ∈ snd r) as Hall.
  { intros id Hid. subst r. rewrite (sendDelta_ok _ _ _ L) by done.
    simpl. apply elem_of_union. left. by apply elem_of_list_to_set. }
  split_and!; [|done|apply markAndDiff_new_sublist|done|done|].
  - subst r. rewrite (sendDelta_ok _ _ _ L) by done. cbn [fst].
    change (new_stories (GetTop :: ?t)) with (new_stories t).
    fold new. destruct new as [|x new'] eqn:Hnew.
    + unfold new_stories. by rewrite emitted_emit; simpl; unfold maxNewStoriesToSend; lia.
    + etrans; [apply new_stories_delta_loop|]. rewrite length_take. lia.
  - intros x Hx.
    assert (x ∉ take maxNewStoriesToSend new) as Hcut.
    { pose proof (markAndDiff_new_NoDup ids L) as Hnd. fold new in Hnd.
      rewrite <-(take_drop maxNewStoriesToSend new) in Hnd.
      apply NoDup_app in Hnd as (_ & Hdisj & _). intros Hin. by apply (Hdisj x). }
    assert (x ∈ snd r) as Hseen.
    { apply Hall. eapply elem_of_sublist; [|apply markAndDiff_new_sublist].
      eapply elem_of_sublist; [done|apply sublist_drop]. }
    split_and!; [by rewrite Hreq| |done|].
    { intros Hin. apply Hcut. by eapply elem_of_sublist. }
    intros calls w' net' later.
    assert (x ∉ requested (fst later)) as Hlater.
    { intros Hin. apply sendDelta_requested_fresh in Hin. apply Hin.
      by apply run_mono. }
    split; [done|]. intros Hin. apply Hlater.
    eapply elem_of_sublist; [done|apply sendDelta_deliveries].
Qed.

Lemma periodic_bound_and_marking_witness :
  topstories (feed [1; 2; 3; 4; 5; 6; 7]) = TopOk [1; 2; 3; 4; 5; 6; 7]
  ∧ requested (fst (sendDeltaHackerNewsStories open_conn (feed [1; 2; 3; 4; 5; 6; 7]) init))
    = [1; 2; 3; 4; 5]
  ∧ 6 ∈ snd (sendDeltaHackerNewsStories open_conn (feed [1; 2; 3; 4; 5; 6; 7]) init)
  ∧ 6 ∉ requested (fst (sendDeltaHackerNewsStories closed_conn (feed [6; 7; 8])
          (snd (run [Initial open_conn (feed [9])]
             (snd (sendDeltaHackerNewsStories open_conn (feed [1; 2; 3; 4; 5; 6; 7]) init)))))).
Proof.
  destruct (periodic_bound_and_marking open_conn (feed [1; 2; 3; 4; 5; 6; 7]) init
              [1; 2; 3; 4; 5; 6; 7] eq_refl) as (_ & Hreq & _ & _ & _ & Hcut).
  assert (6 ∈ drop maxNewStoriesToSend (fst (markAndDiff init [1; 2; 3; 4; 5; 6; 7])))
    as H6 by (apply (bool_decide_unpack _); vm_compute; exact I).
  destruct (Hcut 6 H6) as (_ & _ & Hseen & Hlater).
  split_and!; [reflexivity|exact Hreq|exact Hseen|].
  exact (proj1 (Hlater [Initial open_conn (feed [9])] closed_conn (feed [6; 7; 8]))).
Defined.

(** C8. In a periodic cycle whose list [L] arrives, the delta is empty
    exactly when every identifier of [L] is already in the table; the cycle
    then writes one [no-new-data] message and nothing else, no [new-story],
    asks for no item, and leaves the table as it was. *)
Theorem heartbeat_on_empty_delta (w : Conn) (net : World) (ids : gset Z) (L : list Z) :
  topstories net = TopOk L →
  (fst (markAndDiff ids L) = [] ↔ ∀ id, id ∈ L → id ∈ ids)
  ∧ (fst (markAndDiff ids L) = [] →
     emitted (fst (sendDeltaHackerNewsStories w net ids)) = [NoNewData]
     ∧ new_stories (fst (sendDeltaHackerNewsStories w net ids)) = []
     ∧ requested (fst (sendDeltaHackerNewsStories w net ids)) = []
     ∧ snd (sendDeltaHackerNewsStories w net ids) = ids).
Proof.
  intros Htop.
  assert (fst (markAndDiff ids L) = [] ↔ ∀ id, id ∈ L → id ∈ ids) as Hempty.
  { rewrite markAndDiff_eq. cbn [fst]. rewrite absent_nil.
    split; intros Hall id Hid; apply Hall; by apply first_occ_elem. }
  split; [exact Hempty|]. intros Hnew.
  rewrite (sendDelta_ok _ _ _ L) by done. rewrite Hnew. cbn [fst snd].
  unfold new_stories.
  change (emitted (GetTop :: ?t)) with (emitted t).
  change (requested (GetTop :: ?t)) with (requested t).
  rewrite emitted_emit, requested_emit.
  split_and!; [done..|].
  pose proof (proj1 Hempty Hnew) as Hall. apply set_eq. intros x.
  rewrite elem_of_union, elem_of_list_to_set. naive_solver.
Qed.

Lemma heartbeat_on_empty_delta_witness :
  topstories (feed [1; 2; 3]) = TopOk [1; 2; 3]
  ∧ fst (markAndDiff {[1; 2; 3]} [1; 2; 3]) = []
  ∧ emitted (fst (sendDeltaHackerNewsStories open_conn (feed [1; 2; 3]) {[1; 2; 3]}))
    = [NoNewData]
  ∧ snd (sendDeltaHackerNewsStories open_conn (feed [1; 2; 3]) {[1; 2; 3]})
    = {[1; 2; 3]}.
Proof.
  assert (fst (markAndDiff {[1; 2; 3]} [1; 2; 3]) = []) as Hnew
    by (vm_compute; reflexivity).
  destruct (heartbeat_on_empty_delta open_conn (feed [1; 2; 3]) {[1; 2; 3]} [1; 2; 3]
              eq_refl) as (_ & Hbeat).
  destruct (Hbeat Hnew) as (Hev & _ & _ & Hids).
  split_and!; [reflexivity|exact Hnew|exact Hev|exact Hids].
Defined.

(** C10. In a periodic cycle whose list arrives with a delta that is not
    empty, if every one of the (at most five) items asked for comes back
    and is skipped by the validity test, the cycle writes no message at
    all: no [new-story], no [no-new-data], no error. The items were asked
    for, and the whole list is marked. *)
Theorem silent_cycle (w : Conn) (net : World) (ids : gset Z) (L : list Z) :
  topstories net = TopOk L →
  fst (markAndDiff ids L) ≠ [] →
  (∀ k id, take maxNewStoriesToSend (fst (markAndDiff ids L)) !! k = Some id →
     ∃ story, item net k id = ItemOk story ∧ skipped story = true) →
  emitted (fst (sendDeltaHackerNewsStories w net ids)) = []
  ∧ requested (fst (sendDeltaHackerNewsStories w net ids))
    = take maxNewStoriesToSend (fst (markAndDiff ids L))
  ∧ ∀ id, id ∈ L → id ∈ snd (sendDeltaHackerNewsStories w net ids).
Proof.
  intros Htop Hnew Hskip.
  split_and!; [|by apply sendDelta_requested|].
  - rewrite (sendDelta_ok _ _ _ L) by done. cbn [fst].
    change (emitted (GetTop :: ?t)) with (emitted t).
    destruct (fst (markAndDiff ids L)) as [|x new]; [done|].
    by apply delta_loop_all_skipped.
  - intros id Hid. rewrite (sendDelta_ok _ _ _ L) by done. cbn [snd].
    apply elem_of_union. left. by apply elem_of_list_to_set.
Qed.

Lemma silent_cycle_witness :
  topstories (feed_jobs [1; 2]) = TopOk [1; 2]
  ∧ fst (markAndDiff init [1; 2]) ≠ []
  ∧ emitted (fst (sendDeltaHackerNewsStories open_conn (feed_jobs [1; 2]) init)) = [].
Proof.
  assert (fst (markAndDiff init [1; 2]) ≠ []) as Hnew by (vm_compute; discriminate).
  split_and!; [reflexivity|exact Hnew|].
  apply (silent_cycle open_conn (feed_jobs [1; 2]) init [1; 2] eq_refl Hnew).
  intros k id _. exists (job_of id). split; reflexivity.
Defined.

(** ** Write errors and the end of a session *)

Section WriteErrors.
Implicit Types (w : Conn) (net : World) (ids : gset Z) (sel : list Select).

Lemma erase_sendDelta w1 w2 net ids :
  erase <$> fst (sendDeltaHackerNewsStories w1 net ids)
  = erase <$> fst (sendDeltaHackerNewsStories w2 net ids)
  ∧ snd (sendDeltaHackerNewsStories w1 net ids)
    = snd (sendDeltaHackerNewsStories w2 net ids).
Proof.
  unfold sendDeltaHackerNewsStories.
  destruct (topstories net) as [| |l]; cbn [fst snd];
    [by rewrite !fmap_cons, !erase_emit..|].
  destruct (markAndDiff ids l) as [new ids'].
  destruct (length new =? 0)%nat; cbn [fst snd]; rewrite !fmap_cons.
  - by rewrite !erase_emit.
  - by rewrite (erase_delta_loop w1 w2).
Qed.

Lemma erase_sendInitial w1 w2 net ids :
  erase <$> fst (sendInitialHackerNewsStories w1 net ids)
  = erase <$> fst (sendInitialHackerNewsStories w2 net ids)
  ∧ snd (sendInitialHackerNewsStories w1 net ids)
    = snd (sendInitialHackerNewsStories w2 net ids).
Proof.
  unfold sendInitialHackerNewsStories.
  destruct (topstories net) as [| |l]; cbn [fst snd];
    [by rewrite !fmap_cons, !erase_emit..|].
  destruct (erase_initial_loop w1 w2 net 0 (storiesToFetch l) ids) as [Ha Hi].
  destruct (initial_loop w1 net 0 (storiesToFetch l) ids) as [a1 i1].
  destruct (initial_loop w2 net 0 (storiesToFetch l) ids) as [a2 i2].
  cbn [fst snd] in *. by rewrite !fmap_cons, Ha, Hi.
Qed.

Lemma erase_handler_loop sel w ids :
  erase <$> fst (handler_loop w sel ids)
  = erase <$> fst (handler_loop open_conn (no_hangup sel) ids)
  ∧ snd (handler_loop w sel ids) = snd (handler_loop open_conn (no_hangup sel) ids).
Proof.
  revert w ids. induction sel as [|s sel IH]; intros w ids; [done|].
  destruct s as [net| | |c]; cbn [handler_loop no_hangup].
  - destruct (erase_sendDelta w open_conn net ids) as [Ha Hi].
    destruct (sendDeltaHackerNewsStories w net ids) as [a1 i1].
    destruct (sendDeltaHackerNewsStories open_conn net ids) as [a2 i2].
    cbn [fst snd] in *. subst i2.
    destruct (IH w i1) as [Ha' Hi'].
    destruct (handler_loop w sel i1) as [b1 j1].
    destruct (handler_loop open_conn (no_hangup sel) i1) as [b2 j2].
    cbn [fst snd] in *. by rewrite !fmap_app, Ha, Ha', Hi'.
  - done.
  - apply IH.
  - apply IH.
Qed.

Lemma handler_loop_done pre post w ids :
  handler_loop w (pre ++ Done :: post) ids = handler_loop w pre ids.
Proof.
  revert w ids. induction pre as [|s pre IH]; intros w ids; [done|].
  destruct s as [net| | |c]; cbn [app handler_loop]; [|done|apply IH|apply IH].
  destruct (sendDeltaHackerNewsStories w net ids) as [a1 i1]. by rewrite IH.
Qed.

End WriteErrors.

(** C9, as the code has it. A write to a closed connection fails once and
    its error is returned, and no call site looks at it: there is no retry
    and no buffering, and the failure does not end the session. Forgetting
    which writes succeeded, a session issues the same requests and the same
    writes, and leaves the same table, as if its client had never hung up.
    The session ends when its loop takes the [ctx.Done()] case: that case,
    and anything that becomes ready after it, adds no request and no
    write. *)
Theorem write_errors_are_dropped (flusher : bool) (w : Conn) (net0 : World)
  (sel pre post : list Select) (ids : gset Z) (e : Event) :
  Fprintf closed_conn e = ([WriteFailed e], Some ErrClosed)
  ∧ emit closed_conn e = [WriteFailed e]
  ∧ erase <$> fst (hnEventsHandler flusher w net0 sel ids)
    = erase <$> fst (hnEventsHandler flusher open_conn net0 (no_hangup sel) ids)
  ∧ snd (hnEventsHandler flusher w net0 sel ids)
    = snd (hnEventsHandler flusher open_conn net0 (no_hangup sel) ids)
  ∧ hnEventsHandler flusher w net0 (pre ++ Done :: post) ids
    = hnEventsHandler flusher w net0 pre ids.
Proof.
  split_and!; [done|done| | |].
  - unfold hnEventsHandler. destruct flusher; [|done].
    destruct (erase_sendInitial w open_conn net0 ids) as [Ha Hi].
    destruct (sendInitialHackerNewsStories w net0 ids) as [a1 i1].
    destruct (sendInitialHackerNewsStories open_conn net0 ids) as [a2 i2].
    cbn [fst snd] in *. subst i2.
    destruct (erase_handler_loop sel w i1) as [Ha' _].
    destruct (handler_loop w sel i1) as [b1 j1].
    destruct (handler_loop open_conn (no_hangup sel) i1) as [b2 j2].
    cbn [fst snd] in *. by rewrite !fmap_app, !erase_emit, Ha, Ha'.
  - unfold hnEventsHandler. destruct flusher; [|done].
    destruct (erase_sendInitial w open_conn net0 ids) as [_ Hi].
    destruct (sendInitialHackerNewsStories w net0 ids) as [a1 i1].
    destruct (sendInitialHackerNewsStories open_conn net0 ids) as [a2 i2].
    cbn [fst snd] in *. subst i2.
    destruct (erase_handler_loop sel w i1) as [_ Hi'].
    destruct (handler_loop w sel i1) as [b1 j1].
    destruct (handler_loop open_conn (no_hangup sel) i1) as [b2 j2].
    done.
  - unfold hnEventsHandler. destruct flusher; [|done].
    destruct (sendInitialHackerNewsStories w net0 ids) as [a1 i1].
    by rewrite handler_loop_done.
Qed.

(** C9 as stated fails: the client hangs up, the ticker fires, and the
    cycle runs to its end. The write of story 1 fails, and the session goes
    on to ask for item 2 and to write again. *)
Lemma write_error_does_not_stop_session :
  fst (hnEventsHandler true open_conn (feed [])
         [Hangup; Tick (feed [1; 2]); Done] init)
  = [Wrote Connected; GetTop;
     GetTop;
     GetItem 1; WriteFailed (NewStory (story_of 1) "{}");
     GetItem 2; WriteFailed (NewStory (story_of 2) "{}")]
  ∧ stops_at_write_error
      (fst (hnEventsHandler true open_conn (feed [])
              [Hangup; Tick (feed [1; 2]); Done] init)) = false.
Proof. split; vm_compute; reflexivity. Qed.

(** The initial phase does not consult the table: a fresh session is sent
    the head of the list even when the table already holds it. The bound of
    C7 is about periodic cycles only. *)
Example initial_phase_ignores_table :
  6 ∈ ({[6]} : gset Z)
  ∧ emitted (fst (sendInitialHackerNewsStories open_conn (feed [6]) {[6]}))
    = [NewStory (story_of 6) "{}"].
Proof.
  split; [apply (bool_decide_unpack _)|]; vm_compute; [exact I|reflexivity].
Qed.

(** * Further properties of the code *)

(** ** What the two item loops write *)

Section Messages.
Implicit Types (w : Conn) (net : World) (ids : gset Z) (l : list Z) (k : nat)
  (e : Event) (c : Call).

(** The two loops act alike on the feed and on the client: they differ in
    what they do to the table only. *)
Lemma initial_body_actions w net k id ids :
  fst (initial_body w net k id ids) = delta_body w net k id.
Proof.
  unfold initial_body, delta_body.
  destruct (item net k id) as [| |story]; [done..|].
  destruct (skipped story); [done|]. by destruct (marshal net story).
Qed.

Lemma initial_loop_actions w net k l ids :
  fst (initial_loop w net k l ids) = delta_loop w net k l.
Proof.
  revert k ids. induction l as [|id l IH]; intros k ids; simpl; [done|].
  pose proof (initial_body_actions w net k id ids) as Hb.
  destruct (initial_body w net k id ids) as [acts ids1].
  specialize (IH (S k) ids1).
  destruct (initial_loop w net (S k) l ids1) as [acts' ids2].
  cbn [fst] in *. by rewrite Hb, IH.
Qed.

Lemma emitted_delta_body w net k id :
  emitted (delta_body w net k id) = option_list (outcome net k id).
Proof.
  unfold delta_body, outcome.
  destruct (item net k id) as [| |story];
    [change (emitted (GetItem id :: ?t)) with (emitted t);
     by rewrite emitted_emit..|].
  destruct (skipped story); [done|].
  destruct (marshal net story);
    change (emitted (GetItem id :: ?t)) with (emitted t);
    by rewrite emitted_emit.
Qed.

(** A message is written by the loop exactly when it is the outcome of one
    of its iterations. *)
Lemma elem_of_emitted_delta_loop w net k l e :
  e ∈ emitted (delta_loop w net k l)
  ↔ ∃ j id, l !! j = Some id ∧ outcome net (k + j) id = Some e.
Proof.
  revert k. induction l as [|id l IH]; intros k; simpl.
  - split; [by intros ?%elem_of_nil|by intros (j & id & ? & _)].
  - rewrite emitted_app, elem_of_app, emitted_delta_body, IH. split.
    + intros [He|(j & id' & Hj & Ho)].
      * exists 0%nat, id. rewrite Nat.add_0_r.
        destruct (outcome net k id); [|by apply elem_of_nil in He].
        by apply list_elem_of_singleton in He as ->.
      * exists (S j), id'. by rewrite Nat.add_succ_r.
    + intros ([|j] & id' & Hj & Ho).
      * left. simplify_eq/=. rewrite Nat.add_0_r in Ho. rewrite Ho. by left.
      * right. exists j, id'. by rewrite Nat.add_succ_r in Ho.
Qed.

Lemma length_emitted_delta_loop w net k l :
  (length (emitted (delta_loop w net k l)) ≤ length l)%nat.
Proof.
  revert k. induction l as [|id l IH]; intros k; simpl; [done|].
  rewrite emitted_app, length_app, emitted_delta_body.
  specialize (IH (S k)). destruct (outcome net k id); simpl; lia.
Qed.

(** The actions of a sender whose list arrives. *)
Lemma sendInitial_ok w net ids l :
  topstories net = TopOk l →
  fst (sendInitialHackerNewsStories w net ids)
  = GetTop :: delta_loop w net 0 (take initialStoriesLimit l).
Proof.
  intros Htop. unfold sendInitialHackerNewsStories.
  rewrite Htop, storiesToFetch_take.
  pose proof (initial_loop_actions w net 0 (take initialStoriesLimit l) ids) as Ha.
  destruct (initial_loop w net 0 (take initialStoriesLimit l) ids) as [acts ids'].
  cbn [fst] in *. by rewrite Ha.
Qed.

Lemma sendInitial_table w net ids :
  snd (sendInitialHackerNewsStories w net ids)
  = list_to_set (ID <$> new_stories (fst (sendInitialHackerNewsStories w net ids))) ∪ ids.
Proof.
  unfold sendInitialHackerNewsStories.
  destruct (topstories net) as [| |l]; cbn [fst snd].
  - unfold new_stories. change (emitted (GetTop :: ?t)) with (emitted t).
    rewrite emitted_emit. simpl. set_solver.
  - unfold new_stories. change (emitted (GetTop :: ?t)) with (emitted t).
    rewrite emitted_emit. simpl. set_solver.
  - pose proof (initial_loop_table w net 0 (storiesToFetch l) ids) as Ht.
    destruct (initial_loop w net 0 (storiesToFetch l) ids) as [acts ids'].
    cbn [fst snd] in *. by rewrite Ht.
Qed.

Lemma sender_failed w net ids cause :
  list_failure (topstories net) = Some cause →
  sendInitialHackerNewsStories w net ids = (GetTop :: emit w (Error cause), ids)
  ∧ sendDeltaHackerNewsStories w net ids = (GetTop :: emit w (Error cause), ids).
Proof.
  unfold sendInitialHackerNewsStories, sendDeltaHackerNewsStories.
  destruct (topstories net); intros [= <-]; done.
Qed.

(** Every message of a call, sorted by where it comes from: an iteration of
    the item loop, the failure of the list, or the empty delta. *)
Lemma call_emitted_elem c ids e :
  e ∈ emitted (fst (call c ids))
  ↔ (∃ j id, requested (fst (call c ids)) !! j = Some id
             ∧ outcome (world_of c) j id = Some e)
    ∨ (∃ cause, list_failure (topstories (world_of c)) = Some cause ∧ e = Error cause)
    ∨ (e = NoNewData
       ∧ ∃ w net L, c = Delta w net ∧ topstories net = TopOk L
                    ∧ fst (markAndDiff ids L) = []).
Proof.
  destruct c as [w net|w net]; cbn [call world_of].
  - destruct (topstories net) as [| |l] eqn:Htop.
    + destruct (sender_failed w net ids Fetching) as [-> _]; [by rewrite Htop|].
      cbn [fst]. change (emitted (GetTop :: ?t)) with (emitted t).
      change (requested (GetTop :: ?t)) with (requested t).
      rewrite emitted_emit, requested_emit, list_elem_of_singleton. split.
      * intros ->. right; left. by exists Fetching.
      * intros [(j & id & Hj & _)|[(cause & [= <-] & ->)|[_ (? & ? & ? & [=] & _)]]];
          [done|done].
    + destruct (sender_failed w net ids Decoding) as [-> _]; [by rewrite Htop|].
      cbn [fst]. change (emitted (GetTop :: ?t)) with (emitted t).
      change (requested (GetTop :: ?t)) with (requested t).
      rewrite emitted_emit, requested_emit, list_elem_of_singleton. split.
      * intros ->. right; left. by exists Decoding.
      * intros [(j & id & Hj & _)|[(cause & [= <-] & ->)|[_ (? & ? & ? & [=] & _)]]];
          [done|done].
    + rewrite (sendInitial_ok _ _ _ l) by done.
      change (emitted (GetTop :: ?t)) with (emitted t).
      change (requested (GetTop :: ?t)) with (requested t).
      rewrite requested_delta_loop, elem_of_emitted_delta_loop. split.
      * intros (j & id & Hj & Ho). left. by exists j, id.
      * intros [(j & id & Hj & Ho)|[(cause & [=] & _)|[_ (? & ? & ? & [=] & _)]]].
        by exists j, id.
  - destruct (topstories net) as [| |l] eqn:Htop.
    + destruct (sender_failed w net ids Fetching) as [_ ->]; [by rewrite Htop|].
      cbn [fst]. change (emitted (GetTop :: ?t)) with (emitted t).
      change (requested (GetTop :: ?t)) with (requested t).
      rewrite emitted_emit, requested_emit, list_elem_of_singleton. split.
      * intros ->. right; left. by exists Fetching.
      * intros [(j & id & Hj & _)|[(cause & [= <-] & ->)|[_ (? & ? & ? & [= _ <-] & ? & _)]]];
          [done|done|congruence].
    + destruct (sender_failed w net ids Decoding) as [_ ->]; [by rewrite Htop|].
      cbn [fst]. change (emitted (GetTop :: ?t)) with (emitted t).
      change (requested (GetTop :: ?t)) with (requested t).
      rewrite emitted_emit, requested_emit, list_elem_of_singleton. split.
      * intros ->. right; left. by exists Decoding.
      * intros [(j & id & Hj & _)|[(cause & [= <-] & ->)|[_ (? & ? & ? & [= _ <-] & ? & _)]]];
          [done|done|congruence].
    + rewrite (sendDelta_ok _ _ _ l) by done. cbn [fst].
      change (emitted (GetTop :: ?t)) with (emitted t).
      change (requested (GetTop :: ?t)) with (requested t).
      destruct (fst (markAndDiff ids l)) as [|x new] eqn:Hnew.
      * rewrite emitted_emit, requested_emit, list_elem_of_singleton. split.
        -- intros ->. right; right. split; [done|]. by exists w, net, l.
        -- intros [(j & id & Hj & _)|[(cause & [=] & _)|[-> _]]]; done.
      * rewrite requested_delta_loop, elem_of_emitted_delta_loop. split.
        -- intros (j & id & Hj & Ho). left. by exists j, id.
        -- intros [(j & id & Hj & Ho)|[(cause & [=] & _)|[_ (? & ? & L & [= _ <-] & HL & Hnil)]]].
           ++ by exists j, id.
           ++ congruence.
Qed.

End Messages.

Section Outcomes.
Implicit Types (w : Conn) (net : World) (ids : gset Z) (l : list Z) (k : nat)
  (e : Event) (c : Call).

(** The validity test, read positively. *)
Lemma skipped_false story :
  skipped story = false
  ↔ Type_ story = "story" ∧ Title story ≠ "" ∧ URL story ≠ "".
Proof.
  unfold skipped. rewrite !orb_false_iff, !bool_decide_eq_false. split.
  - intros ((Ht & Hti) & Hu). split_and!; [by apply dec_stable|done..].
  - intros (Ht & Hti & Hu). split_and!; [by intros ?|done..].
Qed.

Lemma outcome_Some net k id e :
  outcome net k id = Some e
  ↔ (item net k id = ItemFetchErr ∧ e = StoryError id Fetching)
    ∨ (item net k id = ItemDecodeErr ∧ e = StoryError id Decoding)
    ∨ (∃ story, item net k id = ItemOk story ∧ skipped story = false
                ∧ ((marshal net story = None ∧ e = StoryError id Marshalling)
                   ∨ ∃ data, marshal net story = Some data ∧ e = NewStory story data)).
Proof.
  unfold outcome. destruct (item net k id) as [| |story].
  - split; [intros [= <-]; by left|].
    intros [[_ ->]|[[[=] _]|(? & [=] & _)]]. done.
  - split; [intros [= <-]; right; by left|].
    intros [[[=] _]|[[_ ->]|(? & [=] & _)]]. done.
  - destruct (skipped story) eqn:Hskip.
    + split; [done|].
      intros [[[=] _]|[[[=] _]|(? & [= <-] & ? & _)]]. congruence.
    + destruct (marshal net story) as [data|] eqn:Hjson.
      * split.
        -- intros [= <-]. right; right. exists story. split_and!; [done..|].
           right. by exists data.
        -- intros [[[=] _]|[[[=] _]|(? & [= <-] & _ & [[? _]|(? & ? & ->)])]];
             congruence.
      * split.
        -- intros [= <-]. right; right. exists story. split_and!; [done..|].
           by left.
        -- intros [[[=] _]|[[[=] _]|(? & [= <-] & _ & [[_ ->]|(? & ? & _)])]];
             congruence.
Qed.

Lemma length_omap_le {A B} (f : A → option B) (xs : list A) :
  (length (omap f xs) ≤ length xs)%nat.
Proof.
  induction xs as [|x xs IH]; [done|].
  cbn [omap list_omap]. destruct (f x); cbn [length]; lia.
Qed.

Lemma size_list_to_set_le l : (size (list_to_set l : gset Z) ≤ length l)%nat.
Proof.
  induction l as [|x l IH].
  - rewrite list_to_set_nil, size_empty. done.
  - rewrite list_to_set_cons, size_union_alt, size_singleton. cbn [length].
    assert (size (list_to_set l ∖ {[x]} : gset Z) ≤ size (list_to_set l : gset Z))%nat
      by (apply subseteq_size; set_solver).
    lia.
Qed.

Lemma list_requests_emit w e : list_requests (emit w e) = 0%nat.
Proof. by destruct (emit_cases w e) as [-> | ->]. Qed.

Lemma list_requests_app (a b : list Action) :
  list_requests (a ++ b) = (list_requests a + list_requests b)%nat.
Proof. unfold list_requests. by rewrite filter_app, length_app. Qed.

Lemma list_requests_delta_loop w net k l : list_requests (delta_loop w net k l) = 0%nat.
Proof.
  revert k. induction l as [|id l IH]; intros k; simpl; [done|].
  rewrite list_requests_app, IH, Nat.add_0_r.
  unfold delta_body.
  destruct (item net k id) as [| |story];
    [change (list_requests (GetItem id :: ?t)) with (list_requests t);
     apply list_requests_emit..|].
  destruct (skipped story); [done|].
  destruct (marshal net story);
    change (list_requests (GetItem id :: ?t)) with (list_requests t);
    apply list_requests_emit.
Qed.

End Outcomes.

Section Budgets.
Implicit Types (w : Conn) (net : World) (ids : gset Z) (l : list Z).

(** The three shapes of the trace of a sender. *)
Lemma sendInitial_shape w net ids :
  (∃ cause, fst (sendInitialHackerNewsStories w net ids) = GetTop :: emit w (Error cause))
  ∨ ∃ l, fst (sendInitialHackerNewsStories w net ids)
         = GetTop :: delta_loop w net 0 (take initialStoriesLimit l).
Proof.
  destruct (topstories net) as [| |l] eqn:Htop.
  - left. exists Fetching.
    by destruct (sender_failed w net ids Fetching) as [-> _]; [rewrite Htop|].
  - left. exists Decoding.
    by destruct (sender_failed w net ids Decoding) as [-> _]; [rewrite Htop|].
  - right. exists l. by apply sendInitial_ok.
Qed.

Lemma sendDelta_shape w net ids :
  (∃ e, fst (sendDeltaHackerNewsStories w net ids) = GetTop :: emit w e
        ∧ e ≠ Connected ∧ new_story e = None)
  ∨ ∃ l, fst (sendDeltaHackerNewsStories w net ids)
         = GetTop :: delta_loop w net 0 (take maxNewStoriesToSend l).
Proof.
  destruct (topstories net) as [| |l] eqn:Htop.
  - left. exists (Error Fetching).
    by destruct (sender_failed w net ids Fetching) as [_ ->]; [rewrite Htop|].
  - left. exists (Error Decoding).
    by destruct (sender_failed w net ids Decoding) as [_ ->]; [rewrite Htop|].
  - rewrite (sendDelta_ok _ _ _ l) by done. cbn [fst].
    destruct (fst (markAndDiff ids l)) as [|x new].
    + left. by exists NoNewData.
    + right. by exists (x :: new).
Qed.

Lemma sendInitial_list_requests w net ids :
  list_requests (fst (sendInitialHackerNewsStories w net ids)) = 1%nat.
Proof.
  destruct (sendInitial_shape w net ids) as [[cause ->]|[l ->]];
    change (list_requests (GetTop :: ?t)) with (S (list_requests t));
    by rewrite ?list_requests_emit, ?list_requests_delta_loop.
Qed.

Lemma sendDelta_list_requests w net ids :
  list_requests (fst (sendDeltaHackerNewsStories w net ids)) = 1%nat.
Proof.
  destruct (sendDelta_shape w net ids) as [(e & -> & _ & _)|[l ->]];
    change (list_requests (GetTop :: ?t)) with (S (list_requests t));
    by rewrite ?list_requests_emit, ?list_requests_delta_loop.
Qed.

Lemma sendInitial_requested_le w net ids :
  (length (requested (fst (sendInitialHackerNewsStories w net ids)))
   ≤ initialStoriesLimit)%nat.
Proof.
  destruct (sendInitial_shape w net ids) as [[cause ->]|[l ->]];
    change (requested (GetTop :: ?t)) with (requested t).
  - rewrite requested_emit. simpl. lia.
  - rewrite requested_delta_loop, length_take. lia.
Qed.

Lemma sendDelta_requested_le w net ids :
  (length (requested (fst (sendDeltaHackerNewsStories w net ids)))
   ≤ maxNewStoriesToSend)%nat.
Proof.
  destruct (sendDelta_shape w net ids) as [(e & -> & _ & _)|[l ->]];
    change (requested (GetTop :: ?t)) with (requested t).
  - rewrite requested_emit. simpl. lia.
  - rewrite requested_delta_loop, length_take. lia.
Qed.

Lemma sendInitial_emitted_le w net ids :
  (length (emitted (fst (sendInitialHackerNewsStories w net ids)))
   ≤ initialStoriesLimit)%nat.
Proof.
  destruct (sendInitial_shape w net ids) as [[cause ->]|[l ->]];
    change (emitted (GetTop :: ?t)) with (emitted t).
  - rewrite emitted_emit. unfold initialStoriesLimit. simpl. lia.
  - etrans; [apply length_emitted_delta_loop|]. rewrite length_take. lia.
Qed.

Lemma sendDelta_emitted_le w net ids :
  (length (emitted (fst (sendDeltaHackerNewsStories w net ids)))
   ≤ maxNewStoriesToSend)%nat.
Proof.
  destruct (sendDelta_shape w net ids) as [(e & -> & _ & _)|[l ->]];
    change (emitted (GetTop :: ?t)) with (emitted t).
  - rewrite emitted_emit. unfold maxNewStoriesToSend. simpl. lia.
  - etrans; [apply length_emitted_delta_loop|]. rewrite length_take. lia.
Qed.

End Budgets.

(** X1. When the list of the initial phase cannot be fetched or decoded,
    the phase writes one [error] message, asks for no item, writes no story
    and leaves the table as it was. *)
Theorem initial_list_failure (w : Conn) (net : World) (ids : gset Z) (cause : Cause) :
  list_failure (topstories net) = Some cause →
  emitted (fst (sendInitialHackerNewsStories w net ids)) = [Error cause]
  ∧ requested (fst (sendInitialHackerNewsStories w net ids)) = []
  ∧ new_stories (fst (sendInitialHackerNewsStories w net ids)) = []
  ∧ snd (sendInitialHackerNewsStories w net ids) = ids.
Proof.
  intros Hfail. destruct (sender_failed w net ids cause Hfail) as [-> _].
  cbn [fst snd]. unfold new_stories.
  change (emitted (GetTop :: ?t)) with (emitted t).
  change (requested (GetTop :: ?t)) with (requested t).
  by rewrite emitted_emit, requested_emit.
Qed.

Lemma initial_list_failure_witness :
  list_failure (topstories feed_down) = Some Fetching
  ∧ emitted (fst (sendInitialHackerNewsStories closed_conn feed_down {[4]}))
    = [Error Fetching]
  ∧ snd (sendInitialHackerNewsStories closed_conn feed_down {[4]}) = {[4]}.
Proof.
  destruct (initial_list_failure closed_conn feed_down {[4]} Fetching eq_refl)
    as (Hev & _ & _ & Hids).
  split_and!; [reflexivity|exact Hev|exact Hids].
Defined.

(** X2. Whatever the feed answers, the initial phase asks for the list
    once, asks for at most ten items, writes at most ten messages, and adds
    at most ten identifiers to the table. *)
Theorem initial_phase_budget (w : Conn) (net : World) (ids : gset Z) :
  list_requests (fst (sendInitialHackerNewsStories w net ids)) = 1%nat
  ∧ (length (requested (fst (sendInitialHackerNewsStories w net ids)))
     ≤ initialStoriesLimit)%nat
  ∧ (length (emitted (fst (sendInitialHackerNewsStories w net ids)))
     ≤ initialStoriesLimit)%nat
  ∧ (size (snd (sendInitialHackerNewsStories w net ids))
     ≤ size ids + initialStoriesLimit)%nat.
Proof.
  split_and!.
  - apply sendInitial_list_requests.
  - apply sendInitial_requested_le.
  - apply sendInitial_emitted_le.
  - rewrite sendInitial_table, size_union_alt.
    pose proof (size_list_to_set_le
      (ID <$> new_stories (fst (sendInitialHackerNewsStories w net ids)))) as Hsz.
    rewrite length_fmap in Hsz.
    pose proof (length_omap_le new_story
      (emitted (fst (sendInitialHackerNewsStories w net ids)))) as Hns.
    fold (new_stories (fst (sendInitialHackerNewsStories w net ids))) in Hns.
    pose proof (sendInitial_emitted_le w net ids) as Hmsg.
    assert (size (ids ∖ list_to_set
              (ID <$> new_stories (fst (sendInitialHackerNewsStories w net ids))))
            ≤ size ids)%nat by (apply subseteq_size; set_solver).
    lia.
Qed.

(** X3. Whatever the feed answers, a periodic cycle asks for the list once,
    asks for at most five items and writes at most five messages. *)
Theorem delta_cycle_budget (w : Conn) (net : World) (ids : gset Z) :
  list_requests (fst (sendDeltaHackerNewsStories w net ids)) = 1%nat
  ∧ (length (requested (fst (sendDeltaHackerNewsStories w net ids)))
     ≤ maxNewStoriesToSend)%nat
  ∧ (length (emitted (fst (sendDeltaHackerNewsStories w net ids)))
     ≤ maxNewStoriesToSend)%nat.
Proof.
  split_and!.
  - apply sendDelta_list_requests.
  - apply sendDelta_requested_le.
  - apply sendDelta_emitted_le.
Qed.

(** X4. A call of either sender writes a [new-story] message for [story]
    with data [data] exactly when one of its item requests was answered by
    [story], the story passed the validity test, and [data] is what
    [json.Marshal] made of it. Hence every story sent to a client has type
    [story], a title and a URL. *)
Theorem new_story_iff (c : Call) (ids : gset Z) (story : HNStory) (data : string) :
  (NewStory story data ∈ emitted (fst (call c ids))
   ↔ ∃ j id, requested (fst (call c ids)) !! j = Some id
             ∧ item (world_of c) j id = ItemOk story
             ∧ skipped story = false
             ∧ marshal (world_of c) story = Some data)
  ∧ (NewStory story data ∈ emitted (fst (call c ids)) →
     Type_ story = "story" ∧ Title story ≠ "" ∧ URL story ≠ "").
Proof.
  assert (NewStory story data ∈ emitted (fst (call c ids))
          ↔ ∃ j id, requested (fst (call c ids)) !! j = Some id
                    ∧ item (world_of c) j id = ItemOk story
                    ∧ skipped story = false
                    ∧ marshal (world_of c) story = Some data) as Hiff.
  { rewrite call_emitted_elem. split.
    - intros [(j & id & Hj & Ho)|[(cause & _ & [=])|[[=] _]]].
      exists j, id. split; [done|].
      apply outcome_Some in Ho
        as [[_ [=]]|[[_ [=]]|(s & Hitem & Hskip & [[_ [=]]|(d & Hjson & [= <- <-])])]].
      done.
    - intros (j & id & Hj & Hitem & Hskip & Hjson). left. exists j, id.
      split; [done|]. apply outcome_Some. right; right. exists story.
      split_and!; [done..|]. right. by exists data. }
  split; [exact Hiff|].
  intros (j & id & _ & _ & Hskip & _)%Hiff. by apply skipped_false.
Qed.

Lemma new_story_iff_witness :
  NewStory (story_of 3) "{}" ∈ emitted (fst (call (Initial open_conn (feed [3])) init))
  ∧ Type_ (story_of 3) = "story".
Proof.
  assert (NewStory (story_of 3) "{}"
            ∈ emitted (fst (call (Initial open_conn (feed [3])) init))) as Hin.
  { apply (proj1 (new_story_iff (Initial open_conn (feed [3])) init (story_of 3) "{}")).
    exists 0%nat, 3. split_and!; reflexivity. }
  split; [exact Hin|].
  exact (proj1 (proj2 (new_story_iff (Initial open_conn (feed [3])) init
                         (story_of 3) "{}") Hin)).
Defined.

(** X5. A call of either sender writes a [story-error] message about [id]
    exactly when one of its requests for [id] failed: the fetch, the
    decoding of the body, or the marshalling of a story that passed the
    validity test. A skipped item is not reported. *)
Theorem story_error_iff (c : Call) (ids : gset Z) (id : Z) :
  (StoryError id Fetching ∈ emitted (fst (call c ids))
   ↔ ∃ j, requested (fst (call c ids)) !! j = Some id
          ∧ item (world_of c) j id = ItemFetchErr)
  ∧ (StoryError id Decoding ∈ emitted (fst (call c ids))
     ↔ ∃ j, requested (fst (call c ids)) !! j = Some id
            ∧ item (world_of c) j id = ItemDecodeErr)
  ∧ (StoryError id Marshalling ∈ emitted (fst (call c ids))
     ↔ ∃ j story, requested (fst (call c ids)) !! j = Some id
                  ∧ item (world_of c) j id = ItemOk story
                  ∧ skipped story = false
                  ∧ marshal (world_of c) story = None).
Proof.
  split_and!; rewrite call_emitted_elem; split.
  - intros [(j & id' & Hj & Ho)|[(cause & _ & [=])|[[=] _]]].
    apply outcome_Some in Ho
      as [[Hitem [= <-]]|[[_ [=]]|(s & _ & _ & [[_ [=]]|(d & _ & [=])])]].
    by exists j.
  - intros (j & Hj & Hitem). left. exists j, id. split; [done|].
    apply outcome_Some. by left.
  - intros [(j & id' & Hj & Ho)|[(cause & _ & [=])|[[=] _]]].
    apply outcome_Some in Ho
      as [[_ [=]]|[[Hitem [= <-]]|(s & _ & _ & [[_ [=]]|(d & _ & [=])])]].
    by exists j.
  - intros (j & Hj & Hitem). left. exists j, id. split; [done|].
    apply outcome_Some. right; by left.
  - intros [(j & id' & Hj & Ho)|[(cause & _ & [=])|[[=] _]]].
    apply outcome_Some in Ho
      as [[_ [=]]|[[_ [=]]|(s & Hitem & Hskip & [[Hjson [= <-]]|(d & _ & [=])])]].
    by exists j, s.
  - intros (j & story & Hj & Hitem & Hskip & Hjson). left. exists j, id.
    split; [done|]. apply outcome_Some. right; right. exists story.
    split_and!; [done..|]. by left.
Qed.

(** X6. The status messages are truthful. A call writes [no-new-data]
    exactly when it is a periodic cycle whose list arrived with no
    identifier outside the table; the initial phase never writes it. A call
    writes [error] exactly when its list could not be fetched or decoded,
    and then it asked for no item and left the table as it was. *)
Theorem status_messages (c : Call) (ids : gset Z) (cause : Cause) :
  (NoNewData ∈ emitted (fst (call c ids))
   ↔ ∃ w net L, c = Delta w net ∧ topstories net = TopOk L
                ∧ ∀ id, id ∈ L → id ∈ ids)
  ∧ (Error cause ∈ emitted (fst (call c ids))
     ↔ list_failure (topstories (world_of c)) = Some cause)
  ∧ (Error cause ∈ emitted (fst (call c ids)) →
     requested (fst (call c ids)) = [] ∧ snd (call c ids) = ids).
Proof.
  assert (Error cause ∈ emitted (fst (call c ids))
          ↔ list_failure (topstories (world_of c)) = Some cause) as Herr.
  { rewrite call_emitted_elem. split.
    - intros [(j & id & _ & Ho)|[(cause' & Hfail & [= <-])|[[=] _]]]; [|done].
      apply outcome_Some in Ho
        as [[_ [=]]|[[_ [=]]|(s & _ & _ & [[_ [=]]|(d & _ & [=])])]].
    - intros Hfail. right; left. by exists cause. }
  split_and!; [|exact Herr|].
  - rewrite call_emitted_elem. split.
    + intros [(j & id & _ & Ho)|[(cause' & _ & [=])|[_ (w & net & L & -> & Htop & Hnil)]]].
      * apply outcome_Some in Ho
          as [[_ [=]]|[[_ [=]]|(s & _ & _ & [[_ [=]]|(d & _ & [=])])]].
      * exists w, net, L. split_and!; [done..|].
        intros id Hid. rewrite markAndDiff_eq in Hnil. cbn [fst] in Hnil.
        apply (proj1 (absent_nil _ _) Hnil). by apply first_occ_elem.
    + intros (w & net & L & -> & Htop & Hall). right; right. split; [done|].
      exists w, net, L. split_and!; [done..|].
      rewrite markAndDiff_eq. cbn [fst]. apply absent_nil.
      intros x Hx. apply Hall. by apply (proj1 (first_occ_elem _ _)).
  - intros Hfail%Herr.
    destruct c as [w net|w net]; cbn [call world_of] in *.
    + destruct (sender_failed w net ids cause Hfail) as [-> _]. cbn [fst snd].
      change (requested (GetTop :: ?t)) with (requested t).
      by rewrite requested_emit.
    + destruct (sender_failed w net ids cause Hfail) as [_ ->]. cbn [fst snd].
      change (requested (GetTop :: ?t)) with (requested t).
      by rewrite requested_emit.
Qed.

Lemma status_messages_witness :
  Error Fetching ∈ emitted (fst (call (Delta open_conn feed_down) {[5]}))
  ∧ snd (call (Delta open_conn feed_down) {[5]}) = {[5]}.
Proof.
  destruct (status_messages (Delta open_conn feed_down) {[5]} Fetching)
    as (_ & Herr & Hquiet).
  assert (Error Fetching ∈ emitted (fst (call (Delta open_conn feed_down) {[5]})))
    as Hin by (apply Herr; reflexivity).
  split; [exact Hin|]. exact (proj2 (Hquiet Hin)).
Defined.

Lemma story_error_iff_witness :
  StoryError 8 Fetching
    ∈ emitted (fst (call (Delta open_conn
                           (mkWorld (TopOk [8]) (λ _ _, ItemFetchErr) (λ _, None))) init)).
Proof.
  apply (proj1 (story_error_iff
    (Delta open_conn (mkWorld (TopOk [8]) (λ _ _, ItemFetchErr) (λ _, None))) init 8)).
  exists 0%nat. split; reflexivity.
Defined.

(** ** Retries and repeats *)

Section Repeats.
Implicit Types (w : Conn) (net : World) (ids : gset Z) (l : list Z).

Lemma sendDelta_requested_marked w net ids x :
  x ∈ requested (fst (sendDeltaHackerNewsStories w net ids)) →
  x ∈ snd (sendDeltaHackerNewsStories w net ids).
Proof.
  destruct (topstories net) as [| |l] eqn:Htop.
  - destruct (sender_failed w net ids Fetching) as [_ ->]; [by rewrite Htop|].
    cbn [fst]. change (requested (GetTop :: ?t)) with (requested t).
    rewrite requested_emit. by intros ?%elem_of_nil.
  - destruct (sender_failed w net ids Decoding) as [_ ->]; [by rewrite Htop|].
    cbn [fst]. change (requested (GetTop :: ?t)) with (requested t).
    rewrite requested_emit. by intros ?%elem_of_nil.
  - rewrite (sendDelta_requested _ _ _ l) by done. intros Hx.
    eapply elem_of_sublist in Hx; [|apply sublist_take].
    apply markAndDiff_new_elem in Hx as [Hx _].
    rewrite (sendDelta_ok _ _ _ l) by done. cbn [snd].
    apply elem_of_union. left. by apply elem_of_list_to_set.
Qed.

Lemma newStoryIDs_of_Delta_elem w net ids L x :
  topstories net = TopOk L →
  x ∈ newStoryIDs_of (Delta w net) ids ↔ x ∈ L ∧ x ∉ ids.
Proof. intros Htop. cbn [newStoryIDs_of]. rewrite Htop. apply markAndDiff_new_elem. Qed.

End Repeats.

(** X7. An item that a periodic cycle asked for is never asked for again by
    a periodic cycle of any session, whatever became of it (delivered,
    skipped, or failed) and whatever calls were made in between. *)
Theorem no_retry_across_cycles (w : Conn) (net : World) (ids : gset Z) (x : Z)
  (calls : list Call) (w' : Conn) (net' : World) :
  x ∈ requested (fst (sendDeltaHackerNewsStories w net ids)) →
  x ∉ requested (fst (sendDeltaHackerNewsStories w' net'
                        (snd (run calls (snd (sendDeltaHackerNewsStories w net ids)))))).
Proof.
  intros Hx%sendDelta_requested_marked Hagain.
  apply sendDelta_requested_fresh in Hagain. apply Hagain. by apply run_mono.
Qed.

Lemma no_retry_across_cycles_witness :
  7 ∈ requested (fst (sendDeltaHackerNewsStories open_conn (feed_jobs [7]) init))
  ∧ 7 ∉ requested (fst (sendDeltaHackerNewsStories open_conn (feed [7; 8])
           (snd (run [Initial closed_conn (feed [9])]
              (snd (sendDeltaHackerNewsStories open_conn (feed_jobs [7]) init)))))).
Proof.
  assert (7 ∈ requested (fst (sendDeltaHackerNewsStories open_conn (feed_jobs [7]) init)))
    as H7 by (apply (bool_decide_unpack _); vm_compute; exact I).
  split; [exact H7|].
  exact (no_retry_across_cycles open_conn (feed_jobs [7]) init 7
           [Initial closed_conn (feed [9])] open_conn (feed [7; 8]) H7).
Defined.

(** X8. A story written by an initial phase is marked under the identifier
    it carries, so that no later periodic cycle of any session asks for the
    item of that identifier. *)
Theorem initial_delivery_not_repeated (w : Conn) (net : World) (ids : gset Z)
  (story : HNStory) (calls : list Call) (w' : Conn) (net' : World) :
  story ∈ new_stories (fst (sendInitialHackerNewsStories w net ids)) →
  ID story ∈ snd (sendInitialHackerNewsStories w net ids)
  ∧ ID story ∉ requested (fst (sendDeltaHackerNewsStories w' net'
                   (snd (run calls (snd (sendInitialHackerNewsStories w net ids)))))).
Proof.
  intros Hs.
  assert (ID story ∈ snd (sendInitialHackerNewsStories w net ids)) as Hin.
  { rewrite sendInitial_table. apply elem_of_union. left.
    apply elem_of_list_to_set. by apply list_elem_of_fmap_2. }
  split; [done|]. intros Hagain.
  apply sendDelta_requested_fresh in Hagain. apply Hagain. by apply run_mono.
Qed.

Lemma initial_delivery_not_repeated_witness :
  story_of 1 ∈ new_stories (fst (sendInitialHackerNewsStories open_conn (feed [1; 2]) init))
  ∧ 1 ∉ requested (fst (sendDeltaHackerNewsStories open_conn (feed [1; 2; 3])
          (snd (run [] (snd (sendInitialHackerNewsStories open_conn (feed [1; 2]) init)))))).
Proof.
  assert (story_of 1
            ∈ new_stories (fst (sendInitialHackerNewsStories open_conn (feed [1; 2]) init)))
    as H1 by (vm_compute; left).
  split; [exact H1|].
  exact (proj2 (initial_delivery_not_repeated open_conn (feed [1; 2]) init (story_of 1)
                  [] open_conn (feed [1; 2; 3]) H1)).
Defined.

(** X9. The periodic cycle that follows an initial phase reports as new
    exactly the listed identifiers that were neither in the table before
    the phase nor carried by a story the phase wrote: the items the phase
    skipped or could not fetch, and everything beyond its first ten, come
    up as new. *)
Theorem cycle_after_initial (w : Conn) (net : World) (ids : gset Z)
  (w' : Conn) (net' : World) (L' : list Z) (x : Z) :
  topstories net' = TopOk L' →
  x ∈ newStoryIDs_of (Delta w' net') (snd (sendInitialHackerNewsStories w net ids))
  ↔ x ∈ L' ∧ (x ∉ ids)
    ∧ (x ∉ ID <$> new_stories (fst (sendInitialHackerNewsStories w net ids))).
Proof.
  intros Htop. rewrite (newStoryIDs_of_Delta_elem _ _ _ L') by done.
  rewrite sendInitial_table, elem_of_union, elem_of_list_to_set. tauto.
Qed.

Lemma cycle_after_initial_witness :
  topstories (feed_job2 [1; 2; 3]) = TopOk [1; 2; 3]
  ∧ 2 ∈ newStoryIDs_of (Delta open_conn (feed_job2 [1; 2; 3]))
          (snd (sendInitialHackerNewsStories open_conn (feed_job2 [1; 2; 3]) init)).
Proof.
  split; [reflexivity|].
  apply (proj2 (cycle_after_initial open_conn (feed_job2 [1; 2; 3]) init
                  open_conn (feed_job2 [1; 2; 3]) [1; 2; 3] 2 eq_refl)).
  split_and!; apply (bool_decide_unpack _); vm_compute; exact I.
Defined.

(** ** Counting and composing deltas *)

Section Algebra.
Implicit Types (ids : gset Z) (l : list Z).

Lemma markAndDiff_table_split ids l :
  snd (markAndDiff ids l) = list_to_set (fst (markAndDiff ids l)) ∪ ids.
Proof.
  apply set_eq. intros x.
  rewrite markAndDiff_table_elem, elem_of_union, elem_of_list_to_set,
    markAndDiff_new_elem.
  destruct (decide (x ∈ ids)); tauto.
Qed.

Lemma markAndDiff_size ids l :
  size (snd (markAndDiff ids l)) = (size ids + length (fst (markAndDiff ids l)))%nat.
Proof.
  rewrite markAndDiff_table_split, size_union.
  - rewrite size_list_to_set by apply markAndDiff_new_NoDup. lia.
  - intros x Hx%elem_of_list_to_set%markAndDiff_new_elem. tauto.
Qed.

Lemma markAndDiff_app_eq ids l1 l2 :
  markAndDiff ids (l1 ++ l2)
  = (fst (markAndDiff ids l1) ++ fst (markAndDiff (snd (markAndDiff ids l1)) l2),
     snd (markAndDiff (snd (markAndDiff ids l1)) l2)).
Proof.
  unfold markAndDiff at 1. rewrite fold_left_app.
  fold (markAndDiff ids l1). rewrite (markAndDiff_eq ids l1).
  rewrite markAndDiff_fold. cbn [fst snd]. by rewrite markAndDiff_eq.
Qed.

End Algebra.

(** X10. The delta loop adds to the table exactly the identifiers it
    reports: the table grows by the length of the delta, in the loop and in
    a periodic cycle whose list arrives. *)
Theorem table_grows_by_delta (w : Conn) (net : World) (ids : gset Z) (L : list Z) :
  size (snd (markAndDiff ids L)) = (size ids + length (fst (markAndDiff ids L)))%nat
  ∧ snd (markAndDiff ids L) = list_to_set (fst (markAndDiff ids L)) ∪ ids
  ∧ (topstories net = TopOk L →
     size (snd (sendDeltaHackerNewsStories w net ids))
     = (size ids + length (newStoryIDs_of (Delta w net) ids))%nat).
Proof.
  split_and!; [apply markAndDiff_size|apply markAndDiff_table_split|].
  intros Htop. rewrite (sendDelta_ok _ _ _ L) by done.
  cbn [snd newStoryIDs_of]. rewrite Htop, <-markAndDiff_size.
  by rewrite markAndDiff_eq.
Qed.

Lemma table_grows_by_delta_witness :
  size (snd (sendDeltaHackerNewsStories open_conn (feed [1; 2; 2; 3]) {[1]})) = 3%nat.
Proof.
  destruct (table_grows_by_delta open_conn (feed [1; 2; 2; 3]) {[1]} [1; 2; 2; 3])
    as (_ & _ & Hsize).
  rewrite (Hsize eq_refl). vm_compute. reflexivity.
Defined.

(** X11. Running the delta loop over a list in two pieces, one after the
    other, reports the same identifiers in the same order and leaves the
    same table as running it over the whole list. *)
Theorem markAndDiff_app (ids : gset Z) (l1 l2 : list Z) :
  fst (markAndDiff ids (l1 ++ l2))
    = fst (markAndDiff ids l1) ++ fst (markAndDiff (snd (markAndDiff ids l1)) l2)
  ∧ snd (markAndDiff ids (l1 ++ l2)) = snd (markAndDiff (snd (markAndDiff ids l1)) l2).
Proof. by rewrite markAndDiff_app_eq. Qed.

(** X12. Two delta computations commute up to order: whichever of two lists
    is processed first, the table is the same afterwards, and the two
    deltas together hold the same identifiers, each once. *)
Theorem deltas_commute (ids : gset Z) (A B : list Z) :
  snd (markAndDiff (snd (markAndDiff ids A)) B)
    = snd (markAndDiff (snd (markAndDiff ids B)) A)
  ∧ fst (markAndDiff ids A) ++ fst (markAndDiff (snd (markAndDiff ids A)) B)
    ≡ₚ fst (markAndDiff ids B) ++ fst (markAndDiff (snd (markAndDiff ids B)) A)
  ∧ NoDup (fst (markAndDiff ids A) ++ fst (markAndDiff (snd (markAndDiff ids A)) B)).
Proof.
  assert (∀ X Y, NoDup (fst (markAndDiff ids X)
                        ++ fst (markAndDiff (snd (markAndDiff ids X)) Y))) as Hnd.
  { intros X Y. pose proof (markAndDiff_new_NoDup ids (X ++ Y)) as Hxy.
    by rewrite markAndDiff_app_eq in Hxy. }
  split_and!.
  - apply set_eq. intros x. rewrite !markAndDiff_table_elem. tauto.
  - apply NoDup_Permutation; [apply Hnd..|]. intros x.
    rewrite !elem_of_app, !markAndDiff_new_elem, !markAndDiff_table_elem.
    destruct (decide (x ∈ A)), (decide (x ∈ B)); tauto.
  - apply Hnd.
Qed.

(** ** A whole session *)

Section Sessions.
Implicit Types (w : Conn) (net : World) (ids : gset Z) (l : list Z) (sel : list Select).

Lemma delta_loop_no_connected w net k l : Connected ∉ emitted (delta_loop w net k l).
Proof.
  intros (j & id & _ & Ho)%elem_of_emitted_delta_loop.
  apply outcome_Some in Ho
    as [[_ [=]]|[[_ [=]]|(s & _ & _ & [[_ [=]]|(d & _ & [=])])]].
Qed.

Lemma sendInitial_no_connected w net ids :
  Connected ∉ emitted (fst (sendInitialHackerNewsStories w net ids)).
Proof.
  destruct (sendInitial_shape w net ids) as [[cause ->]|[l ->]];
    change (emitted (GetTop :: ?t)) with (emitted t).
  - rewrite emitted_emit. by intros [=]%list_elem_of_singleton.
  - apply delta_loop_no_connected.
Qed.

Lemma sendDelta_no_connected w net ids :
  Connected ∉ emitted (fst (sendDeltaHackerNewsStories w net ids)).
Proof.
  destruct (sendDelta_shape w net ids) as [(e & -> & He & Hns)|[l ->]];
    change (emitted (GetTop :: ?t)) with (emitted t).
  - rewrite emitted_emit. by intros <-%list_elem_of_singleton.
  - apply delta_loop_no_connected.
Qed.

(** The loop of a handler: one list request per tick it serves, at most
    five item requests per tick, and no [connected] message. *)
Lemma handler_loop_accounting w sel ids :
  list_requests (fst (handler_loop w sel ids)) = ticks sel
  ∧ (length (requested (fst (handler_loop w sel ids)))
     ≤ maxNewStoriesToSend * ticks sel)%nat
  ∧ Connected ∉ emitted (fst (handler_loop w sel ids)).
Proof.
  revert w ids. induction sel as [|s sel IH]; intros w ids.
  - split_and!; [done|simpl; lia|by intros ?%elem_of_nil].
  - destruct s as [net| | |c]; cbn [handler_loop ticks].
    + pose proof (sendDelta_list_requests w net ids) as Hl.
      pose proof (sendDelta_requested_le w net ids) as Hr.
      pose proof (sendDelta_no_connected w net ids) as Hc.
      destruct (sendDeltaHackerNewsStories w net ids) as [acts ids1].
      destruct (IH w ids1) as (IHl & IHr & IHc).
      destruct (handler_loop w sel ids1) as [acts' ids2]. cbn [fst] in *.
      rewrite list_requests_app, requested_app, length_app, emitted_app, IHl, Hl.
      split_and!; [done|lia|]. rewrite elem_of_app. tauto.
    + split_and!; [done|simpl; lia|by intros ?%elem_of_nil].
    + apply IH.
    + apply IH.
Qed.

(** With a feed whose item bodies carry the identifier they were asked
    under, the stories of the loop carry requested identifiers, in order. *)
Lemma delta_loop_story_ids w net k l :
  (∀ j id story, item net j id = ItemOk story → ID story = id) →
  ID <$> new_stories (delta_loop w net k l) `sublist_of` l.
Proof.
  intros Hid. revert k. induction l as [|id l IH]; intros k; simpl; [done|].
  rewrite new_stories_app, fmap_app. unfold new_stories at 1.
  rewrite emitted_delta_body.
  destruct (outcome net k id) as [e|] eqn:Ho.
  - apply outcome_Some in Ho
      as [[_ ->]|[[_ ->]|(s & Hitem & _ & [[_ ->]|(d & _ & ->)])]];
      simpl; try (apply sublist_cons, IH).
    rewrite (Hid _ _ _ Hitem). apply sublist_skip, IH.
  - simpl. apply sublist_cons, IH.
Qed.

End Sessions.

(** X13. A session whose response writer can flush asks for the list once
    at the start and once per tick it serves before its context is done,
    asks for at most ten items plus five per tick, and writes [connected]
    once, as its first message. A session whose writer cannot flush gets a
    server error and nothing else: no request is made and the table is left
    alone. *)
Theorem session_accounting (w : Conn) (net0 : World) (sel : list Select) (ids : gset Z) :
  list_requests (fst (hnEventsHandler true w net0 sel ids)) = S (ticks sel)
  ∧ (length (requested (fst (hnEventsHandler true w net0 sel ids)))
     ≤ initialStoriesLimit + maxNewStoriesToSend * ticks sel)%nat
  ∧ (∃ rest, emitted (fst (hnEventsHandler true w net0 sel ids)) = Connected :: rest
             ∧ Connected ∉ rest)
  ∧ hnEventsHandler false w net0 sel ids = ([HttpError], ids).
Proof.
  unfold hnEventsHandler.
  pose proof (sendInitial_list_requests w net0 ids) as Hl.
  pose proof (sendInitial_requested_le w net0 ids) as Hr.
  pose proof (sendInitial_no_connected w net0 ids) as Hc.
  destruct (sendInitialHackerNewsStories w net0 ids) as [acts1 ids1].
  destruct (handler_loop_accounting w sel ids1) as (Hl' & Hr' & Hc').
  destruct (handler_loop w sel ids1) as [acts2 ids2]. cbn [fst] in *.
  rewrite !list_requests_app, !requested_app, !length_app, !emitted_app.
  rewrite list_requests_emit, requested_emit, emitted_emit, Hl, Hl'.
  split_and!; [done|cbn [length]; lia| |done].
  eexists. split; [reflexivity|]. rewrite elem_of_app. tauto.
Qed.

(** X14. When the feed answers every item request with a body that carries
    the identifier asked for, the [id:] lines of the [new-story] messages of
    a call are identifiers the call asked for, in the order it asked. *)
Theorem story_ids_follow_requests (c : Call) (ids : gset Z) :
  (∀ j id story, item (world_of c) j id = ItemOk story → ID story = id) →
  ID <$> new_stories (fst (call c ids)) `sublist_of` requested (fst (call c ids)).
Proof.
  intros Hid. destruct c as [w net|w net]; cbn [call world_of] in *.
  - destruct (sendInitial_shape w net ids) as [[cause ->]|[l ->]];
      unfold new_stories;
      change (emitted (GetTop :: ?t)) with (emitted t);
      change (requested (GetTop :: ?t)) with (requested t).
    + by rewrite emitted_emit, requested_emit.
    + rewrite requested_delta_loop. by apply delta_loop_story_ids.
  - destruct (sendDelta_shape w net ids) as [(e & -> & He & Hns)|[l ->]];
      unfold new_stories;
      change (emitted (GetTop :: ?t)) with (emitted t);
      change (requested (GetTop :: ?t)) with (requested t).
    + rewrite emitted_emit, requested_emit. cbn [omap list_omap].
      by rewrite Hns.
    + rewrite requested_delta_loop. by apply delta_loop_story_ids.
Qed.

Lemma story_ids_follow_requests_witness :
  ID <$> new_stories (fst (call (Delta open_conn (feed_job2 [1; 2; 3])) init))
  `sublist_of` requested (fst (call (Delta open_conn (feed_job2 [1; 2; 3])) init)).
Proof.
  apply (story_ids_follow_requests (Delta open_conn (feed_job2 [1; 2; 3])) init).
  intros j id story [= <-]. cbn [world_of feed_job2 item].
  by destruct (decide (id = 2)).
Defined.

(** ** The statistics sampler *)

Section Sampler.
Context {float64 : Type} (zero : float64).
Implicit Types (s t : TemperatureStat float64) (r : Readings float64).

Lemma cpu_sensor_true s :
  cpu_sensor s = true ↔ SensorKey s ∈ ["Package id 0"; "Tdie"; "coretemp"].
Proof.
  unfold cpu_sensor. rewrite !orb_true_iff, !bool_decide_eq_true.
  rewrite !elem_of_cons, elem_of_nil. tauto.
Qed.

Lemma pick_temp_none (l : list (TemperatureStat float64)) :
  (∀ t, t ∈ l → cpu_sensor t = false) → pick_temp zero l = zero.
Proof.
  induction l as [|t l IH]; intros Hall; simpl; [done|].
  rewrite (Hall t) by left. apply IH. intros t' Ht'. apply Hall. by right.
Qed.

Lemma pick_temp_first (pre post : list (TemperatureStat float64)) s :
  (∀ t, t ∈ pre → cpu_sensor t = false) → cpu_sensor s = true →
  pick_temp zero (pre ++ s :: post) = Temperature s.
Proof.
  induction pre as [|t pre IH]; intros Hall Hs; simpl; [by rewrite Hs|].
  rewrite (Hall t) by left. apply IH; [|done].
  intros t' Ht'. apply Hall. by right.
Qed.

Lemma MiB_floor x : uint64 x → floor_MiB x (MiB x) ∧ uint64 (MiB x).
Proof.
  unfold uint64, floor_MiB, MiB. intros [H0 H64].
  pose proof (Z.div_mod x (1024 * 1024) ltac:(lia)) as Hdm.
  pose proof (Z.mod_pos_bound x (1024 * 1024) ltac:(lia)) as Hm.
  assert (0 ≤ x / (1024 * 1024)) by (apply Z.div_pos; lia).
  assert (x / (1024 * 1024) ≤ x) by (apply Z.div_le_upper_bound; lia).
  lia.
Qed.

End Sampler.

(** X15. The temperature of a sample is that of the first sensor, in the
    order the host lists them, whose key is [Package id 0], [Tdie] or
    [coretemp]; sensors after it are not looked at. When no sensor has such
    a key (or none is listed) the temperature is zero. *)
Theorem temperature_selection {float64 : Type} (zero : float64)
  (pre post : list (TemperatureStat float64)) (s : TemperatureStat float64) :
  (∀ t, t ∈ pre → SensorKey t ∉ ["Package id 0"; "Tdie"; "coretemp"]) →
  pick_temp zero pre = zero
  ∧ (SensorKey s ∈ ["Package id 0"; "Tdie"; "coretemp"] →
     pick_temp zero (pre ++ s :: post) = Temperature s).
Proof.
  intros Hpre.
  assert (∀ t, t ∈ pre → cpu_sensor t = false) as Hnone.
  { intros t Ht. apply not_true_is_false. rewrite cpu_sensor_true. by apply Hpre. }
  split; [by apply pick_temp_none|].
  intros Hs. apply pick_temp_first; [done|]. by apply cpu_sensor_true.
Qed.

Lemma temperature_selection_witness :
  pick_temp 0 [mkTemperatureStat "acpitz" 30; mkTemperatureStat "Tdie" 55;
               mkTemperatureStat "coretemp" 70] = 55.
Proof.
  refine (proj2 (temperature_selection 0 [mkTemperatureStat "acpitz" 30]
                   [mkTemperatureStat "coretemp" 70] (mkTemperatureStat "Tdie" 55) _) _).
  - intros t ->%list_elem_of_singleton. apply (bool_decide_unpack _).
    vm_compute. exact I.
  - apply (bool_decide_unpack _). vm_compute. exact I.
Defined.

(** X16. An iteration of the statistics handler produces a sample exactly
    when the CPU reading is not empty and the load, memory, swap and disk
    readings are present (otherwise the handler panics); the sensors
    reading is not needed. In a sample the memory, swap and disk sizes are
    the readings in whole mebibytes, rounded down, and fit [uint64]; the
    temperature is zero when no sensor was read. *)
Theorem sample_of_readings {float64 : Type} (zero : float64) (r : Readings float64) :
  (is_Some (sample zero r)
   ↔ cpuPercent r ≠ [] ∧ is_Some (loadAvg r) ∧ is_Some (vmem r)
     ∧ is_Some (swap r) ∧ is_Some (disk r))
  ∧ ∀ st v s d,
      sample zero r = Some st → vmem r = Some v → swap r = Some s → disk r = Some d →
      uint64 (Used v) → uint64 (Total v) → uint64 (Used s) → uint64 (Total s) →
      uint64 (Used d) → uint64 (Total d) →
      floor_MiB (Used v) (MemoryUsed st) ∧ floor_MiB (Total v) (MemoryTotal st)
      ∧ floor_MiB (Used s) (SwapUsed st) ∧ floor_MiB (Total s) (SwapTotal st)
      ∧ floor_MiB (Used d) (DiskUsed st) ∧ floor_MiB (Total d) (DiskTotal st)
      ∧ uint64 (MemoryUsed st) ∧ uint64 (MemoryTotal st)
      ∧ uint64 (SwapUsed st) ∧ uint64 (SwapTotal st)
      ∧ uint64 (DiskUsed st) ∧ uint64 (DiskTotal st)
      ∧ (sensors r = [] → TempC st = zero).
Proof.
  split.
  - unfold sample.
    destruct (cpuPercent r) as [|c cs], (loadAvg r), (vmem r), (swap r), (disk r);
      split; try (intros [? [=]]); try (intros (? & ? & ? & ? & ?));
      try done; try (by repeat match goal with H : is_Some None |- _ =>
                                  destruct H as [? [=]] end).
  - intros st v s d Hst Hv Hs Hd ? ? ? ? ? ?. unfold sample in Hst.
    rewrite Hv, Hs, Hd in Hst.
    destruct (cpuPercent r) as [|c cs]; [done|].
    destruct (loadAvg r) as [l|]; [|done]. injection Hst as <-. cbn.
    split_and!; try (by apply MiB_floor). by intros ->.
Qed.

Lemma sample_of_readings_witness :
  floor_MiB 3145727 2
  ∧ is_Some (sample 0 (mkReadings [12] 4 (Some (mkAvgStat 1 1 1))
                         (Some (mkUsageStat 3145727 8388608 37))
                         (Some (mkUsageStat 0 0 0)) []
                         (Some (mkUsageStat 1048576 2097152 50)))).
Proof.
  destruct (sample_of_readings 0
              (mkReadings [12] 4 (Some (mkAvgStat 1 1 1))
                 (Some (mkUsageStat 3145727 8388608 37))
                 (Some (mkUsageStat 0 0 0)) []
                 (Some (mkUsageStat 1048576 2097152 50)))) as [Hdef Hfields].
  assert (is_Some (sample 0 (mkReadings [12] 4 (Some (mkAvgStat 1 1 1))
                         (Some (mkUsageStat 3145727 8388608 37))
                         (Some (mkUsageStat 0 0 0)) []
                         (Some (mkUsageStat 1048576 2097152 50))))) as Hsome.
  { apply Hdef. cbn. split_and!; [done|by eexists..]. }
  split; [|exact Hsome].
  destruct Hsome as [st Hst].
  destruct (Hfields st _ _ _ Hst eq_refl eq_refl eq_refl) as (Hused & _);
    try (unfold uint64; cbn; lia).
  injection Hst as <-. exact Hused.
Defined.

(** ** The page script: how many entries stay on display *)

Section Display.
Implicit Types (nodes : list Node) (el : Node) (n m : nat).

Local Open Scope nat_scope.

Lemma children_cons el nodes :
  length (children (el :: nodes))
  = (if is_element el then 1 else 0) + length (children nodes).
Proof.
  unfold children. rewrite filter_cons.
  destruct (is_element el), (decide _); simpl; congruence.
Qed.

(** A longer prefix has at most one element more. *)
Lemma children_take_S nodes n :
  length (children (take (S n) nodes)) ≤ S (length (children (take n nodes))).
Proof.
  revert nodes. induction n as [|n IH]; intros [|x nodes].
  - simpl. lia.
  - rewrite take_0. cbn [take]. rewrite take_0, children_cons.
    destruct (is_element x); simpl; lia.
  - simpl. lia.
  - change (take (S (S n)) (x :: nodes)) with (x :: take (S n) nodes).
    change (take (S n) (x :: nodes)) with (x :: take n nodes).
    rewrite !children_cons. specialize (IH nodes). lia.
Qed.

Lemma children_take_mono nodes n m :
  n ≤ m → length (children (take n nodes)) ≤ length (children (take m nodes)).
Proof.
  revert nodes m. induction n as [|n IH]; intros nodes m Hnm.
  - rewrite take_0. simpl. lia.
  - destruct m as [|m]; [lia|]. destruct nodes as [|x nodes]; [simpl; lia|].
    change (take (S n) (x :: nodes)) with (x :: take n nodes).
    change (take (S m) (x :: nodes)) with (x :: take m nodes).
    rewrite !children_cons. specialize (IH nodes m). lia.
Qed.

(** The loop, with enough fuel, keeps the longest prefix of the child nodes
    that has at most twenty elements. *)
Lemma limit_loop_spec fuel nodes :
  length nodes < fuel →
  ∃ n, n ≤ length nodes
       ∧ limit_loop fuel nodes = Some (take n nodes)
       ∧ length (children (take n nodes)) ≤ displayLimit
       ∧ ∀ m, n < m ≤ length nodes → displayLimit < length (children (take m nodes)).
Proof.
  revert nodes. induction fuel as [|fuel IH]; intros nodes Hfuel; [lia|].
  cbn [limit_loop].
  destruct (displayLimit <? length (children nodes)) eqn:Htest.
  - apply Nat.ltb_lt in Htest.
    assert (0 < length nodes) as Hpos.
    { pose proof (length_filter (λ x, is_element x = true) nodes) as Hle.
      fold (children nodes) in Hle. unfold displayLimit in Htest. lia. }
    rewrite removelast_firstn_len.
    destruct (IH (take (pred (length nodes)) nodes)) as (n & Hn & Hres & Hcnt & Hmax).
    { rewrite length_take. lia. }
    rewrite length_take in Hn, Hmax.
    rewrite take_take in Hres, Hcnt.
    replace (n `min` pred (length nodes)) with n in Hres, Hcnt by lia.
    exists n. split_and!; [lia|done|done|].
    intros m Hm. destruct (decide (m = length nodes)) as [->|Hne].
    + by rewrite take_ge by lia.
    + specialize (Hmax m ltac:(lia)). rewrite take_take in Hmax.
      by replace (m `min` pred (length nodes)) with m in Hmax by lia.
  - apply Nat.ltb_ge in Htest. exists (length nodes).
    rewrite take_ge by lia. split_and!; [lia|done|done|lia].
Qed.

(** Prepending an element and trimming: the element stays in front, the
    display holds twenty elements or all that there are, and nothing is
    removed while there is room. *)
Lemma prepend_and_limit_spec el nodes :
  is_element el = true →
  ∃ n, prepend_and_limit el nodes = Some (el :: take n nodes)
       ∧ length (children (el :: take n nodes))
         = displayLimit `min` S (length (children nodes))
       ∧ (length (children nodes) < displayLimit → take n nodes = nodes).
Proof.
  intros Hel. unfold prepend_and_limit.
  destruct (limit_loop_spec (S (S (length nodes))) (el :: nodes))
    as (n & Hn & Hres & Hcnt & Hmax); [simpl; lia|].
  cbn [length] in Hn, Hmax.
  assert (length (children (el :: nodes)) = S (length (children nodes))) as Htotal
    by (rewrite children_cons, Hel; lia).
  destruct n as [|n].
  { exfalso. specialize (Hmax 1 ltac:(lia)).
    pose proof (children_take_S (el :: nodes) 0) as Hstep.
    rewrite take_0 in Hstep. change (children []) with (@nil Node) in Hstep.
    unfold displayLimit in Hmax. cbn [length] in Hstep. lia. }
  change (take (S n) (el :: nodes)) with (el :: take n nodes) in Hres, Hcnt.
  exists n. split; [done|].
  destruct (decide (n = length nodes)) as [->|Hne].
  - rewrite take_ge in * by lia. rewrite Htotal in *. split; [lia|done].
  - specialize (Hmax (S (S n)) ltac:(lia)).
    pose proof (children_take_S (el :: nodes) (S n)) as Hstep.
    pose proof (children_take_mono (el :: nodes) (S (S n)) (length (el :: nodes))
                  ltac:(cbn [length]; lia)) as Hmono.
    rewrite (take_ge (el :: nodes) (length (el :: nodes))) in Hmono by lia.
    rewrite Htotal in Hmono.
    change (take (S n) (el :: nodes)) with (el :: take n nodes) in Hstep.
    split; [lia|]. intros Hroom. lia.
Qed.

End Display.

(** X17. [addMessage] puts the new entry first and keeps the display to
    twenty elements: afterwards the container holds the new paragraph
    followed by a prefix of its former child nodes, with twenty elements or,
    if there were fewer than twenty before, all of them and the new one.
    The trimming loop always ends. *)
Theorem addMessage_limits_display (message className : string) (nodes : list Node) :
  ∃ n, addMessage message className nodes
       = Some (Element ("story-item " +:+ className) message :: take n nodes)
     ∧ length (children (Element ("story-item " +:+ className) message :: take n nodes))
       = (displayLimit `min` S (length (children nodes)))%nat
     ∧ ((length (children nodes) < displayLimit)%nat → take n nodes = nodes).
Proof. unfold addMessage. by apply prepend_and_limit_spec. Qed.

Lemma addMessage_limits_display_witness :
  addMessage "hello" "info-message" [NonElement; Element "story-item" "a"]
  = Some [Element "story-item info-message" "hello"; NonElement; Element "story-item" "a"].
Proof.
  destruct (addMessage_limits_display "hello" "info-message"
              [NonElement; Element "story-item" "a"]) as (n & Hres & _ & Hroom).
  rewrite Hres, Hroom; [reflexivity|]. vm_compute. lia.
Defined.

(** X18. The [new-story] listener shows one new element per event, first in
    the container: the story when its data could be used, and otherwise an
    error paragraph in its place. Either way the display is kept to twenty
    elements, the former child nodes keep their order, and only the last
    ones are dropped. *)
Theorem new_story_listener_display (parsed : string + string) (nodes : list Node) :
  ∃ n, on_new_story parsed nodes
       = Some (match parsed with
               | inr markup => Element "story-item" markup
               | inl message =>
                   Element "story-item error-message"
                     ("Error processing story: " +:+ message)
               end :: take n nodes)
     ∧ length (children (take n nodes))
       = (pred displayLimit `min` length (children nodes))%nat
     ∧ ((length (children nodes) < displayLimit)%nat → take n nodes = nodes).
Proof.
  unfold on_new_story, addMessage.
  destruct parsed as [message|markup].
  - destruct (prepend_and_limit_spec
                (Element ("story-item " +:+ "error-message")
                   ("Error processing story: " +:+ message)) nodes eq_refl)
      as (n & Hres & Hcnt & Hroom).
    exists n. split_and!; [exact Hres| |done].
    rewrite children_cons in Hcnt. cbn [is_element] in Hcnt.
    unfold displayLimit in *. lia.
  - destruct (prepend_and_limit_spec (Element "story-item" markup) nodes eq_refl)
      as (n & Hres & Hcnt & Hroom).
    exists n. split_and!; [exact Hres| |done].
    rewrite children_cons in Hcnt. cbn [is_element] in Hcnt.
    unfold displayLimit in *. lia.
Qed.

Lemma new_story_listener_display_witness :
  on_new_story (inl "Unexpected token") [Element "story-item" "a"]
  = Some [Element "story-item error-message" "Error processing story: Unexpected token";
          Element "story-item" "a"].
Proof.
  destruct (new_story_listener_display (inl "Unexpected token")
              [Element "story-item" "a"]) as (n & Hres & _ & Hroom).
  rewrite Hres, Hroom; [reflexivity|]. vm_compute. lia.
Defined.
